(** * A shallow embedding of the plan compiler and executor of graphile-crystal

    The source is [packages/graphile-crystal/src/aether.ts].  Plans are
    objects referenced by string ids ["_1"], ["_2"], ...; an id is modelled
    by its numeric suffix.  The plan table [this.plans] is a JS object used
    as a map; its keys keep insertion order, so it is modelled as an
    association list in insertion order whose slots may be nulled
    (tree-shaking) or re-pointed at another plan object (replacement). *)

From Stdlib Require Import List String Ascii Arith Bool Lia Permutation.
Import ListNotations.
Open Scope string_scope.
Open Scope list_scope.

(** Errors thrown by the compiler ([throw new Error(...)]) and the value
    returned otherwise. *)
Inductive result (A : Type) : Type :=
| Ok (a : A)
| Throw (message : string).
Arguments Ok {A} a.
Arguments Throw {A} message.

Definition bind {A B} (r : result A) (f : A -> result B) : result B :=
  match r with
  | Ok a => f a
  | Throw m => Throw m
  end.

Notation "x <- r ;; k" := (bind r (fun x => k))
  (at level 61, r at next level, right associativity).

(** A [for (const x of xs)] loop over a state that may throw. *)
Fixpoint foldM {A B} (f : A -> B -> result A) (xs : list B) (acc : A) : result A :=
  match xs with
  | [] => Ok acc
  | x :: xs' => acc' <- f acc x ;; foldM f xs' acc'
  end.

Module Compiler.

(** The compiler phase, [this.phase] (["init"], ["plan"], ...). *)
Inductive Phase :=
| init | plan | validate | deduplicate | optimize | finalize | ready.

Definition Phase_eq_dec (x y : Phase) : {x = y} + {x <> y}.
Proof. decide equality. Defined.

(** The concrete class of a plan, as far as the compiler distinguishes it
    ([instanceof __TrackedObjectPlan], [instanceof __ItemPlan], ...);
    [OtherPlan n] stands for any other class, [n] naming the class. *)
Inductive PlanClass :=
| TrackedObjectPlan
| ItemPlan
| ValuePlan
| ListTransformPlan
| OtherPlan (n : nat).

Definition PlanClass_eq_dec (x y : PlanClass) : {x = y} + {x <> y}.
Proof. decide equality; apply Nat.eq_dec. Defined.

(** The value held by an enumerable property of a plan object: another
    [ExecutablePlan] (given by its id) or anything else. *)
Inductive PropValue :=
| PVPlan (planId : nat)
| PVOther.

Definition PropValue_eq_dec (x y : PropValue) : {x = y} + {x <> y}.
Proof. decide equality; apply Nat.eq_dec. Defined.

(** An [ExecutablePlan] object.  [id] is the plan's own id, assigned by
    [_addPlan] and unique per object; [dependencies] are plan ids;
    [planProps] lists the object's enumerable properties (what
    [for (const key in plan)] visits). *)
Record ExecutablePlan := mkPlan {
  id : nat;
  constructor_ : PlanClass;
  parentPathIdentity : string;
  dependencies : list nat;
  hasSideEffects : bool;
  planProps : list (string * PropValue);
}.

Definition ExecutablePlan_eq_dec (x y : ExecutablePlan) : {x = y} + {x <> y}.
Proof.
  decide equality.
  - apply list_eq_dec. intros [k1 v1] [k2 v2].
    destruct (string_dec k1 k2), (PropValue_eq_dec v1 v2); subst;
      [left; reflexivity | right; congruence ..].
  - apply bool_dec.
  - apply list_eq_dec, Nat.eq_dec.
  - apply string_dec.
  - apply PlanClass_eq_dec.
  - apply Nat.eq_dec.
Defined.

(** Object identity ([===] on plan objects). *)
Definition planEqb (x y : ExecutablePlan) : bool :=
  if ExecutablePlan_eq_dec x y then true else false.

Definition memPlan (p : ExecutablePlan) (s : list ExecutablePlan) : bool :=
  existsb (planEqb p) s.

(** The plan table: slot key, then the plan object or [null]. *)
Definition PlanTable := list (nat * option ExecutablePlan).

(** [this.plans[k]]: [None] for a missing key (undefined) or a nulled slot. *)
Fixpoint lookupPlan (t : PlanTable) (k : nat) : option ExecutablePlan :=
  match t with
  | [] => None
  | (k', o) :: t' => if Nat.eqb k k' then o else lookupPlan t' k
  end.

(** [this.plans[k] = v] for a key already present; a new key is appended
    (JS object keys keep insertion order). *)
Fixpoint setSlot (t : PlanTable) (k : nat) (v : option ExecutablePlan)
  : PlanTable :=
  match t with
  | [] => [(k, v)]
  | (k', o) :: t' =>
      if Nat.eqb k k' then (k', v) :: t' else (k', o) :: setSlot t' k v
  end.

(** The per-plan options recorded while planning ([planOptionsByPlan]);
    only the [stream] option matters to the compiler passes. *)
Record PlanOptions := mkPlanOptions { stream : option nat }.

(** The fields of [Aether] that the compiler passes read and write. *)
Record Aether := mkAether {
  phase : Phase;
  planCount : nat;
  plans : PlanTable;
  planOptionsByPlan : list (ExecutablePlan * PlanOptions);
  subscriptionItemPlanId : option nat;
  itemPlanIdByFieldPathIdentity : list (string * nat);
  sideEffectPlanIdsByPathIdentity : list (string * list nat);
  transformDependencyPlanIdByTransformPlanId : list (nat * nat);
  optimizedPlans : list ExecutablePlan;
}.

Definition setPlans (a : Aether) (t : PlanTable) : Aether :=
  {| phase := phase a; planCount := planCount a; plans := t;
     planOptionsByPlan := planOptionsByPlan a;
     subscriptionItemPlanId := subscriptionItemPlanId a;
     itemPlanIdByFieldPathIdentity := itemPlanIdByFieldPathIdentity a;
     sideEffectPlanIdsByPathIdentity := sideEffectPlanIdsByPathIdentity a;
     transformDependencyPlanIdByTransformPlanId :=
       transformDependencyPlanIdByTransformPlanId a;
     optimizedPlans := optimizedPlans a |}.

Definition setPlanCount (a : Aether) (n : nat) : Aether :=
  {| phase := phase a; planCount := n; plans := plans a;
     planOptionsByPlan := planOptionsByPlan a;
     subscriptionItemPlanId := subscriptionItemPlanId a;
     itemPlanIdByFieldPathIdentity := itemPlanIdByFieldPathIdentity a;
     sideEffectPlanIdsByPathIdentity := sideEffectPlanIdsByPathIdentity a;
     transformDependencyPlanIdByTransformPlanId :=
       transformDependencyPlanIdByTransformPlanId a;
     optimizedPlans := optimizedPlans a |}.

Definition setOptimizedPlans (a : Aether) (s : list ExecutablePlan) : Aether :=
  {| phase := phase a; planCount := planCount a; plans := plans a;
     planOptionsByPlan := planOptionsByPlan a;
     subscriptionItemPlanId := subscriptionItemPlanId a;
     itemPlanIdByFieldPathIdentity := itemPlanIdByFieldPathIdentity a;
     sideEffectPlanIdsByPathIdentity := sideEffectPlanIdsByPathIdentity a;
     transformDependencyPlanIdByTransformPlanId :=
       transformDependencyPlanIdByTransformPlanId a;
     optimizedPlans := s |}.

(** [["plan", "validate", "deduplicate", "optimize"].includes(this.phase)] *)
Definition planCreationAllowed (ph : Phase) : bool :=
  match ph with
  | plan | validate | deduplicate | optimize => true
  | _ => false
  end.

(** [Aether._addPlan]: returns the new id [_${++this.planCount}] (modelled
    by its number) and stores the plan under it. *)
Definition _addPlan (a : Aether) (p : ExecutablePlan) : result (nat * Aether) :=
  if negb (planCreationAllowed (phase a)) then
    Throw "Creating a plan during this phase is forbidden."
  else
    let planId := S (planCount a) in
    let a1 := setPlanCount a planId in
    Ok (planId, setPlans a1 (setSlot (plans a1) planId (Some p))).

(** [this.plans[k]] distinguishing a missing key ([None], undefined) from a
    nulled slot ([Some None], null). *)
Fixpoint lookupSlot (t : PlanTable) (k : nat) : option (option ExecutablePlan) :=
  match t with
  | [] => None
  | (k', o) :: t' => if Nat.eqb k k' then Some o else lookupSlot t' k
  end.

Definition optPlanEqb (x y : option ExecutablePlan) : bool :=
  match x, y with
  | Some p, Some q => planEqb p q
  | None, None => true
  | _, _ => false
  end.

(** [===] between two lookups [this.plans[a] === this.plans[b]]. *)
Definition slotEqb (x y : option (option ExecutablePlan)) : bool :=
  match x, y with
  | Some o1, Some o2 => optPlanEqb o1 o2
  | None, None => true
  | _, _ => false
  end.

(** [Aether.getPlanIds(offset)]: [Object.keys(this.plans).slice(offset)]. *)
Definition getPlanIds (a : Aether) (offset : nat) : list nat :=
  skipn offset (map fst (plans a)).

(** ** [Aether.validatePlans] *)

(** The error messages [validatePlans] collects for one plan: one per
    enumerable property holding an [ExecutablePlan], none for a
    [__TrackedObjectPlan] (which may reference its value plan). *)
Definition illegalReferenceErrors (p : ExecutablePlan) : list string :=
  if PlanClass_eq_dec (constructor_ p) TrackedObjectPlan then []
  else
    map (fun kv => ("ERROR: ExecutablePlan has illegal reference via property '"
                     ++ fst kv ++ "'")%string)
        (filter (fun kv => match snd kv with PVPlan _ => true | PVOther => false end)
                (planProps p)).

Section Validate.
  (** [this.assignGroupIds(offset)], run once the scan found no error. *)
Variable assignGroupIds : Aether -> nat -> result Aether.

Definition validatePlans (a : Aether) (offset : nat) : result Aether :=
    let errors :=
      flat_map (fun i => match lookupPlan (plans a) i with
                         | Some p => illegalReferenceErrors p
                         | None => []   (* [for (key in null)] visits nothing *)
                         end)
               (getPlanIds a offset) in
    match errors with
    | e :: _ => Throw e
    | [] => assignGroupIds a offset
    end.
End Validate.

(** ** [Aether.deduplicatePlan] *)

(** [this.planOptionsByPlan.get(plan)] *)
Fixpoint planOptionsOf (m : list (ExecutablePlan * PlanOptions)) (p : ExecutablePlan)
  : option PlanOptions :=
  match m with
  | [] => None
  | (q, o) :: m' => if planEqb q p then Some o else planOptionsOf m' p
  end.

(** Modelled from the spec: [arraysMatch] of [./utils] (not among the
    sources); the spec's "pairwise-identical dependency identity": equal
    lengths and the comparator holding at every index. *)
Fixpoint arraysMatch {A} (xs ys : list A) (cmp : A -> A -> bool) : bool :=
  match xs, ys with
  | [], [] => true
  | x :: xs', y :: ys' => cmp x y && arraysMatch xs' ys' cmp
  | _, _ => false
  end.

Definition PlanClass_eqb (x y : PlanClass) : bool :=
  if PlanClass_eq_dec x y then true else false.

Definition isPeer (a : Aether) (planA planB : ExecutablePlan) : bool :=
  PlanClass_eqb (constructor_ planA) (constructor_ planB)
  && String.eqb (parentPathIdentity planA) (parentPathIdentity planB)
  && arraysMatch (dependencies planA) (dependencies planB)
       (fun depA depB => slotEqb (lookupSlot (plans a) depA) (lookupSlot (plans a) depB)).

(** The [Object.entries(this.plans).filter(...)] of [deduplicatePlan], with
    its [seenIds] set. *)
Fixpoint collectPeers (a : Aether) (plan : ExecutablePlan) (seenIds : list nat)
    (entries : PlanTable) : list ExecutablePlan :=
  match entries with
  | [] => []
  | (k, Some potentialPeer) :: rest =>
      if Nat.eqb (id potentialPeer) k
         && negb (hasSideEffects potentialPeer)
         && negb (existsb (Nat.eqb (id potentialPeer)) seenIds)
         && isPeer a plan potentialPeer
      then potentialPeer :: collectPeers a plan (id potentialPeer :: seenIds) rest
      else collectPeers a plan seenIds rest
  | (_, None) :: rest => collectPeers a plan seenIds rest
  end.

Section Deduplicate.
  (** The plan's own [deduplicate(peers)] method. *)
Variable deduplicateMethod : ExecutablePlan -> list ExecutablePlan -> ExecutablePlan.

Definition deduplicatePlan (a : Aether) (plan : ExecutablePlan)
    : result ExecutablePlan :=
    if hasSideEffects plan then Ok plan
    else
      let shouldStream :=
        match planOptionsOf (planOptionsByPlan a) plan with
        | Some o => match stream o with Some _ => true | None => false end
        | None => false
        end in
      if shouldStream then Ok plan
      else
        let peers := collectPeers a plan [id plan] (plans a) in
        match peers with
        | [] => Ok plan
        | _ =>
            let replacementPlan := deduplicateMethod plan peers in
            if negb (planEqb replacementPlan plan) && negb (memPlan replacementPlan peers)
            then Throw "deduplicatePlan error: Expected to replace plan with one of its (identical) peers"
            else Ok replacementPlan
        end.
End Deduplicate.

(** ** [Aether.markPlanActive] and [Aether.treeShakePlans] *)

(** [activePlans] is a [Set<ExecutablePlan>]; reaching a missing or nulled
    plan throws when [plan.dependencies] is read.  [fuel] bounds the
    recursion depth (the JS call stack); each level adds a new plan to the
    set, so [S (length table)] levels are never exhausted. *)
Fixpoint markPlanActive (fuel : nat) (t : PlanTable) (plan : option ExecutablePlan)
    (activePlans : list ExecutablePlan) : result (list ExecutablePlan) :=
  match fuel with
  | 0 => Throw "Maximum call stack size exceeded"
  | S f =>
      match plan with
      | None => Throw "Cannot read properties of undefined (reading 'dependencies')"
      | Some p =>
          if memPlan p activePlans then Ok activePlans
          else
            foldM (fun acc d => markPlanActive f t (lookupPlan t d) acc)
                  (dependencies p) (activePlans ++ [p])
      end
  end.

Definition markAll (t : PlanTable) (ids : list nat) (activePlans : list ExecutablePlan)
  : result (list ExecutablePlan) :=
  foldM (fun acc i => markPlanActive (S (List.length t)) t (lookupPlan t i) acc)
        ids activePlans.

(** The seed ids of [treeShakePlans], in the order it marks them: the
    subscription item plan, the item plans of every field path, the side
    effect plans of every field path, the transform dependency plans. *)
Definition seedPlanIds (a : Aether) : list nat :=
  match subscriptionItemPlanId a with Some i => [i] | None => [] end
  ++ map snd (itemPlanIdByFieldPathIdentity a)
  ++ flat_map snd (sideEffectPlanIdsByPathIdentity a)
  ++ map snd (transformDependencyPlanIdByTransformPlanId a).

(** The sweep: [this.plans[i] = null] for every slot whose plan is not
    active. *)
Definition sweep (t : PlanTable) (activePlans : list ExecutablePlan) : PlanTable :=
  map (fun kv => match snd kv with
                 | Some p => if memPlan p activePlans then kv else (fst kv, None)
                 | None => kv
                 end) t.

Definition treeShakePlans (a : Aether) : result Aether :=
  activePlans <- markAll (plans a) (seedPlanIds a) [] ;;
  Ok (setPlans a (sweep (plans a) activePlans)).

(** ** [Aether.processPlans] *)

Inductive Order := DependentsFirst | DependenciesFirst.

(** Insertion into a JS [Set] of ids (keeps first-insertion order). *)
Definition setAdd (s : list nat) (x : nat) : list nat :=
  if existsb (Nat.eqb x) s then s else s ++ [x].

(** The ids of the plans processed before [plan] (the [first] set). *)
Definition firstIds (order : Order) (a : Aether) (plan : ExecutablePlan)
  : result (list nat) :=
  match order with
  | DependentsFirst =>
      Ok (fold_left
            (fun acc kv =>
               match snd kv with
               | Some possibleDependent =>
                   if existsb (fun depId => optPlanEqb (lookupPlan (plans a) depId) (Some plan))
                              (dependencies possibleDependent)
                   then setAdd acc (id possibleDependent) else acc
               | None => acc
               end) (plans a) [])
  | DependenciesFirst =>
      foldM
        (fun acc depId =>
           match lookupPlan (plans a) depId with
           | Some dependency => Ok (setAdd acc (id dependency))
           | None => Throw "Cannot read properties of null (reading 'id')"
           end) (dependencies plan) []
  end.

(** Replace every slot holding a plan with [plan]'s id by [replacementPlan]. *)
Definition replaceInTable (t : PlanTable) (plan replacementPlan : ExecutablePlan) : PlanTable :=
  map (fun kv => match snd kv with
                 | Some q => if Nat.eqb (id q) (id plan) then (fst kv, Some replacementPlan) else kv
                 | None => kv
                 end) t.

Section Process.
Variable order : Order.
  (** The per-plan action; plan methods are pure here, so no plan is
      created and [finalizeArgumentsSince] / [validatePlans] on new plans
      have nothing to do. *)
Variable callback : Aether -> ExecutablePlan -> result (Aether * ExecutablePlan).
Variable onPlanReplacement : option (Aether -> result Aether).

Definition shouldAbort (a : Aether) (plan : ExecutablePlan) : bool :=
    match lookupPlan (plans a) (id plan) with Some _ => false | None => true end.

  (** The [for (const depId of first)] loop of [process(plan)], given the
      recursive [process]; [true] in the result means it returned early
      because [shouldAbort()] held. *)
Fixpoint processFirst
      (proc : Aether -> list ExecutablePlan -> nat -> ExecutablePlan
              -> result (Aether * list ExecutablePlan * nat))
      (plan : ExecutablePlan) (ids : list nat) (a : Aether)
      (processed : list ExecutablePlan) (replacements : nat)
      : result (Aether * list ExecutablePlan * nat * bool) :=
    match ids with
    | [] => Ok (a, processed, replacements, false)
    | depId :: rest =>
        match lookupPlan (plans a) depId with
        | Some depPlan =>
            if memPlan depPlan processed then processFirst proc plan rest a processed replacements
            else
              r <- proc a processed replacements depPlan ;;
              let '(a1, processed1, replacements1) := r in
              if shouldAbort a1 plan then Ok (a1, processed1, replacements1, true)
              else processFirst proc plan rest a1 processed1 replacements1
        | None => processFirst proc plan rest a processed replacements
        end
    end.

  (** [process(plan)]; the [processed] set is shared by all calls, and the
      number of replacements made is counted alongside. *)
Fixpoint process (fuel : nat) (a : Aether) (processed : list ExecutablePlan)
      (replacements : nat) (plan : ExecutablePlan)
      : result (Aether * list ExecutablePlan * nat) :=
    match fuel with
    | 0 => Throw "Maximum call stack size exceeded"
    | S f =>
        if memPlan plan processed then Ok (a, processed, replacements)
        else
          first <- firstIds order a plan ;;
          r <- processFirst (process f) plan first a processed replacements ;;
          let '(a1, processed1, replacements1, aborted) := r in
          if aborted then Ok (a1, processed1, replacements1)
          else
            res <- callback a1 plan ;;
            let '(a2, replacementPlan) := res in
            if planEqb replacementPlan plan then Ok (a2, processed1 ++ [plan], replacements1)
            else
              let a3 := setPlans a2 (replaceInTable (plans a2) plan replacementPlan) in
              a4 <- match onPlanReplacement with
                    | Some g => g a3
                    | None => Ok a3
                    end ;;
              Ok (a4, processed1 ++ [plan], S replacements1)
    end.

Fixpoint processIds (fuel : nat) (a : Aether) (processed : list ExecutablePlan)
      (replacements : nat) (ids : list nat) : result (Aether * nat) :=
    match ids with
    | [] => Ok (a, replacements)
    | i :: rest =>
        match lookupPlan (plans a) i with
        | None => processIds fuel a processed replacements rest
        | Some p =>
            r <- process fuel a processed replacements p ;;
            let '(a1, processed1, replacements1) := r in
            processIds fuel a1 processed1 replacements1 rest
        end
    end.

  (** Returns the table after the pass and the number of replacements. *)
Definition processPlans (a : Aether) (offset : nat) : result (Aether * nat) :=
    processIds (S (List.length (plans a))) a [] 0 (getPlanIds a offset).
End Process.

(** ** [Aether.deduplicatePlans] *)

Section DeduplicatePlans.
Variable deduplicateMethod : ExecutablePlan -> list ExecutablePlan -> ExecutablePlan.

Definition deduplicateCallback (a : Aether) (plan : ExecutablePlan)
    : result (Aether * ExecutablePlan) :=
    r <- deduplicatePlan deduplicateMethod a plan ;; Ok (a, r).

  (** One run of the [do { ... }] body: a [processPlans] pass reporting its
      [replacements]. *)
Definition deduplicatePass (a : Aether) (offset : nat) : result (Aether * nat) :=
    processPlans DependenciesFirst deduplicateCallback None a offset.

Fixpoint deduplicateLoop (budget loops : nat) (a : Aether) (offset : nat)
    : result Aether :=
    if Nat.ltb 10000 loops then Throw "deduplicatePlans has looped too many times"
    else
      match budget with
      | 0 => Throw "deduplicatePlans has looped too many times"
      | S b =>
          r <- deduplicatePass a offset ;;
          let '(a1, replacements) := r in
          if Nat.ltb 0 replacements then deduplicateLoop b (S loops) a1 offset else Ok a1
      end.

Definition deduplicatePlans (a : Aether) (offset : nat) : result Aether :=
    deduplicateLoop 10002 0 a offset.
End DeduplicatePlans.

(** ** [Aether.optimizePlan] and [Aether.optimizePlans] *)

Section Optimize.
  (** The plan's own [optimize({ stream })] method. *)
Variable optimizeMethod : ExecutablePlan -> option nat -> ExecutablePlan.

Definition optimizePlan (a : Aether) (plan : ExecutablePlan)
    : result (Aether * ExecutablePlan) :=
    if memPlan plan (optimizedPlans a) then Throw "Must not optimize plan twice"
    else
      let options := planOptionsOf (planOptionsByPlan a) plan in
      let replacementPlan :=
        optimizeMethod plan (match options with Some o => stream o | None => None end) in
      Ok (setOptimizedPlans a (optimizedPlans a ++ [plan]), replacementPlan).

Definition optimizePlans (a : Aether) : result Aether :=
    r <- processPlans DependentsFirst optimizePlan (Some treeShakePlans) a 0 ;;
    Ok (fst r).
End Optimize.

(** The plans reachable from the seeds of [treeShakePlans] by following
    dependency ids through the table. *)
Inductive Reachable (a : Aether) : ExecutablePlan -> Prop :=
| reach_seed i p :
    In i (seedPlanIds a) -> lookupPlan (plans a) i = Some p -> Reachable a p
| reach_dep q d p :
    Reachable a q -> In d (dependencies q) -> lookupPlan (plans a) d = Some p ->
    Reachable a p.

(** ** Concrete plan tables used by the statements *)

(** A table where optimizing plan 3 replaces it by plan 2, so plan 1 (only
    used by plan 3) is shaken away before its turn. *)
Definition optB := mkPlan 1 (OtherPlan 0) "" [] false [].
Definition optC := mkPlan 2 (OtherPlan 1) "" [] false [].
Definition optA := mkPlan 3 (OtherPlan 2) "" [1] false [].
Definition optAether : Aether :=
  mkAether optimize 3 [(1, Some optB); (2, Some optC); (3, Some optA)] [] None
           [(">a", 3); (">c", 2)] [] [] [].
Definition optMethod (p : ExecutablePlan) (_ : option nat) : ExecutablePlan :=
  if Nat.eqb (id p) 3 then optC else p.

(** Two identical plans, the first streamed. *)
Definition streamedP := mkPlan 1 (OtherPlan 0) "" [] false [].
Definition plainQ := mkPlan 2 (OtherPlan 0) "" [] false [].
Definition dedupAether : Aether :=
  mkAether deduplicate 2 [(1, Some streamedP); (2, Some plainQ)]
           [(streamedP, mkPlanOptions (Some 0))] None [(">p", 1); (">q", 2)] [] [] [].
(** A [deduplicate] method that merges into its first peer. *)
Definition firstPeer (p : ExecutablePlan) (peers : list ExecutablePlan) : ExecutablePlan :=
  match peers with x :: _ => x | [] => p end.

(** A [__TrackedObjectPlan] holding its value plan directly. *)
Definition valuePlan := mkPlan 1 (OtherPlan 0) "" [] false [].
Definition trackedPlan :=
  mkPlan 2 TrackedObjectPlan "" [1] false [("valuePlan", PVPlan 1); ("path", PVOther)].
Definition badRefPlan :=
  mkPlan 2 (OtherPlan 3) "" [1] false [("valuePlan", PVPlan 1)].
Definition badRefAether : Aether :=
  mkAether validate 2 [(1, Some valuePlan); (2, Some badRefPlan)] [] None
           [(">x", 2)] [] [] [].
Definition trackedAether : Aether :=
  mkAether validate 2 [(1, Some valuePlan); (2, Some trackedPlan)] [] None
           [(">x", 2)] [] [] [].

End Compiler.

(** * [assignCommonAncestorPathIdentity] and [treeNodePath] *)

Module CommonAncestor.

Local Set Warnings "-register-all".

(** A [TreeNode] of the compiler's selection tree: [nodeId] stands for the
    object's identity; the node points to its [parent] (null at the root). *)
Inductive TreeNode :=
| mkTreeNode (nodeId : nat) (pathIdentity : string) (fieldPathIdentity : string)
             (parent : option TreeNode).

Definition pathIdentity (n : TreeNode) : string :=
  match n with mkTreeNode _ p _ _ => p end.
Definition fieldPathIdentity (n : TreeNode) : string :=
  match n with mkTreeNode _ _ f _ => f end.
Definition parent (n : TreeNode) : option TreeNode :=
  match n with mkTreeNode _ _ _ par => par end.

Fixpoint TreeNode_eqb (x y : TreeNode) : bool :=
  match x, y with
  | mkTreeNode i1 p1 f1 par1, mkTreeNode i2 p2 f2 par2 =>
      Nat.eqb i1 i2 && String.eqb p1 p2 && String.eqb f1 f2 &&
      match par1, par2 with
      | Some q1, Some q2 => TreeNode_eqb q1 q2
      | None, None => true
      | _, _ => false
      end
  end.

(** [a.startsWith(b)] *)
Definition startsWith (a b : string) : bool := String.prefix b a.

(** The [while ((n = n.parent) && n.pathIdentity.startsWith(start))
    path.unshift(n)] loop. *)
Fixpoint climb (start : string) (n : TreeNode) (path : list TreeNode) : list TreeNode :=
  match n with
  | mkTreeNode _ _ _ (Some p) =>
      if startsWith (pathIdentity p) start then climb start p (p :: path) else path
  | mkTreeNode _ _ _ None => path
  end.

(** [path.splice(listChangeIndex, ...)] where [listChangeIndex] is the
    first index [i >= 1] at which [path[i-1]] and [path[i]] have the same
    field path identity but different path identities (a list boundary). *)
Fixpoint truncateAtListChange (previous : TreeNode) (rest : list TreeNode) : list TreeNode :=
  match rest with
  | [] => []
  | v :: rest' =>
      if String.eqb (fieldPathIdentity previous) (fieldPathIdentity v)
         && negb (String.eqb (pathIdentity previous) (pathIdentity v))
      then []
      else v :: truncateAtListChange v rest'
  end.

Definition truncatePath (path : list TreeNode) : list TreeNode :=
  match path with
  | [] => []
  | first :: rest => first :: truncateAtListChange first rest
  end.

(** The path [treeNodePath] returns once its start check passed. *)
Definition truncatedPath (start : string) (treeNode : TreeNode) : list TreeNode :=
  truncatePath (climb start treeNode [treeNode]).

Definition treeNodePath (treeNode : TreeNode) (startPathIdentity : string)
  : result (list TreeNode) :=
  if negb (startsWith (pathIdentity treeNode) startPathIdentity) then
    Throw "Asked to find treeNodePath to a TreeNode that doesn't start with that path identity!"
  else Ok (truncatedPath startPathIdentity treeNode).

(** [matchLoop]: [deepestCommonPath] is the largest [i] such that every
    [allPaths[j][i]] is [allPaths[0][i]] for all indices up to [i];
    [None] stands for [-1]. *)
Fixpoint matchLoop (i : nat) (rest0 : list TreeNode) (others : list (list TreeNode))
    (deepestCommonPath : option nat) : option nat :=
  match rest0 with
  | [] => deepestCommonPath
  | matcher :: rest =>
      if forallb (fun pathJ => match nth_error pathJ i with
                               | Some n => TreeNode_eqb n matcher
                               | None => false
                               end) others
      then matchLoop (S i) rest others (Some i)
      else deepestCommonPath
  end.

Definition internalErrorNoCommonPath : string :=
  "GraphileInternalError<aac23403-3a32-4e04-a9f2-b19229e3dbfd>: the root tree node should be in common with every path".

(** The body of the [for (const [plan, treeNodes] of treeNodesByPlan)] loop:
    the node whose [pathIdentity] becomes the plan's
    [commonAncestorPathIdentity], given the tree nodes at which the plan is
    first used. *)
Definition commonAncestorNode (parentPathIdentity : string) (treeNodes : list TreeNode)
  : result TreeNode :=
  allPaths <- foldM (fun acc n => p <- treeNodePath n parentPathIdentity ;; Ok (acc ++ [p]))
                    treeNodes [] ;;
  match allPaths with
  | [] => Throw "Cannot read properties of undefined (reading 'length')"
  | path0 :: others =>
      match matchLoop 0 path0 others None with
      | None => Throw internalErrorNoCommonPath
      | Some deepestCommonPath =>
          match nth_error path0 deepestCommonPath with
          | Some n => Ok n
          | None => Throw "Cannot read properties of undefined (reading 'pathIdentity')"
          end
      end
  end.

Definition assignCommonAncestorPathIdentity (parentPathIdentity : string)
    (treeNodes : list TreeNode) : result string :=
  n <- commonAncestorNode parentPathIdentity treeNodes ;; Ok (pathIdentity n).

(** Vocabulary for the statements: the depth of a node, the ancestor-or-self
    relation, and the nodes common to the paths of all usage sites. *)
Fixpoint depth (n : TreeNode) : nat :=
  match n with
  | mkTreeNode _ _ _ (Some p) => S (depth p)
  | mkTreeNode _ _ _ None => 0
  end.

Inductive AncestorOrSelf (m : TreeNode) : TreeNode -> Prop :=
| ancestor_self : AncestorOrSelf m m
| ancestor_parent : forall c p, parent c = Some p -> AncestorOrSelf m p -> AncestorOrSelf m c.

Definition CommonNode (start : string) (treeNodes : list TreeNode) (m : TreeNode) : Prop :=
  forall n, In n treeNodes -> In m (truncatedPath start n).

(** An example selection tree: [>a] is a list field whose items ([>a[]])
    have the fields [>a[]>b] and [>a[]>c]. *)
Definition exRoot : TreeNode := mkTreeNode 0 "" "" None.
Definition exA : TreeNode := mkTreeNode 1 ">a" ">a" (Some exRoot).
Definition exItem : TreeNode := mkTreeNode 2 ">a[]" ">a" (Some exA).
Definition exB : TreeNode := mkTreeNode 3 ">a[]>b" ">a>b" (Some exItem).
Definition exC : TreeNode := mkTreeNode 4 ">a[]>c" ">a>c" (Some exItem).

End CommonAncestor.

(** * Plan execution: [executePlan], [executePlanAlt], [executePlanOld] and
    [executePlanPending]

    The model covers a plan without dependencies ([plan.dependencies] is
    empty), without side effects, without a stream option and other than the
    subscription plan: then [dependencyValuesList] is [[[undefined]]], no
    dependency can short-circuit, and the value for every bucket is
    [pendingResults[0]].  A [PlanResults] is represented by its bucket at the
    plan's [commonAncestorPathIdentity]: a bucket is an object shared by all
    the [PlanResults] that agree up to that path identity.  Values returned by
    [execute] are not promise-like.  Each call runs to completion; a call that
    joins a deferred created by another call still in flight is [Waiting]. *)

Module Executor.

Inductive Value :=
| Undefined
| Null
| Data (n : nat)
| CrystalErrorV (originalError : nat).

(** An entry of [planResultses]: [null], a [CrystalError], or a
    [PlanResults] given by its bucket. *)
Inductive PlanResultsEntry :=
| PRNull
| PRCrystalError (originalError : nat)
| PR (bucket : nat).

Inductive XClass := XItemPlan | XValuePlan | XListTransformPlan | XOther.

Record XPlan := mkXPlan { xid : nat; xclass : XClass; sync : bool }.

(** What one call of [plan.execute(...)] does: return the results list, or
    throw (synchronously or by returning a rejected promise). *)
Inductive ExecOutcome :=
| Returns (values : list Value)
| Throws (error : nat).

(** [store]: the contents of the buckets, [((bucket, plan id), value)],
    newest first; [inflight]: the keys [(plan id, bucket)] of
    [crystalContext.inProgressPlanResolutions]; [executeLog]: the plan id of
    every call of [execute], in order. *)
Record ExecState := mkExecState {
  store : list ((nat * nat) * Value);
  inflight : list (nat * nat);
  executeLog : list nat
}.

(** [planResults.get(commonAncestorPathIdentity, plan.id)], [None] when
    [has] is false. *)
Definition bucketGet (s : list ((nat * nat) * Value)) (b pid : nat) : option Value :=
  match find (fun kv => Nat.eqb (fst (fst kv)) b && Nat.eqb (snd (fst kv)) pid) s with
  | Some kv => Some (snd kv)
  | None => None
  end.

(** [planResults.set(commonAncestorPathIdentity, plan.id, v)] *)
Definition bucketSet (s : list ((nat * nat) * Value)) (b pid : nat) (v : Value) :=
  ((b, pid), v) :: s.

Definition inflightHas (infl : list (nat * nat)) (pid b : nat) : bool :=
  existsb (fun kv => Nat.eqb (fst kv) pid && Nat.eqb (snd kv) b) infl.

Definition inflightDelete (infl : list (nat * nat)) (pid b : nat) : list (nat * nat) :=
  filter (fun kv => negb (Nat.eqb (fst kv) pid && Nat.eqb (snd kv) b)) infl.

Definition invokeExecute (execute : nat -> ExecOutcome) (plan : XPlan) (st : ExecState)
  : ExecState * ExecOutcome :=
  (mkExecState (store st) (inflight st) (executeLog st ++ [xid plan]),
   execute (List.length (executeLog st))).

Definition isItemPlan (plan : XPlan) : bool :=
  match xclass plan with XItemPlan => true | _ => false end.
Definition isValuePlan (plan : XPlan) : bool :=
  match xclass plan with XValuePlan => true | _ => false end.
Definition isListTransformPlan (plan : XPlan) : bool :=
  match xclass plan with XListTransformPlan => true | _ => false end.

(** The [__ItemPlan] shortcut. *)
Definition itemValue (plan : XPlan) (s : list ((nat * nat) * Value)) (pr : PlanResultsEntry) : Value :=
  match pr with
  | PRNull => Null
  | PRCrystalError e => CrystalErrorV e
  | PR b => match bucketGet s b (xid plan) with Some v => v | None => Undefined end
  end.

(** A settled promise. *)
Inductive Settled :=
| SFulfilled (values : list Value)
| SRejected (error : nat).

(** What [executePlan] gives its caller: an array, a promise that fulfils
    or rejects, a synchronous throw, or a promise still waiting on another
    call's deferred. *)
Inductive CallResult :=
| Direct (values : list Value)
| Fulfilled (values : list Value)
| Rejected (error : nat)
| SyncThrow (message : string)
| Waiting.

Definition valuePlanError : string :=
  "GraphileInternalError<079b214f-3ec9-4257-8de9-0ca2b2bdb8e9>: Attempted to queue __ValuePlan for execution".

(** [executePlanPending] for a plan without dependencies: no short-circuit,
    one call of [execute], then [pendingResults[0]] written to the result and
    to each bucket.  A throw of [execute] rejects the returned promise. *)
Definition executePlanPending (execute : nat -> ExecOutcome) (plan : XPlan) (st : ExecState)
    (pendingBuckets : list nat) : ExecState * Settled :=
  match pendingBuckets with
  | [] => (st, SFulfilled [])
  | _ :: _ =>
      let (st1, out) := invokeExecute execute plan st in
      match out with
      | Throws e => (st1, SRejected e)
      | Returns pendingResults =>
          let v := nth 0 pendingResults Undefined in
          (mkExecState (fold_left (fun s b => bucketSet s b (xid plan) v) pendingBuckets (store st1))
                       (inflight st1) (executeLog st1),
           SFulfilled (map (fun _ => v) pendingBuckets))
      end
  end.

(** What the first loop of [executePlanOld] decides for index [i]: a value
    found at once, a join onto the deferred already in flight for the
    bucket, or a new deferred (a pending [PlanResults]). *)
Inductive Slot :=
| Filled (v : Value)
| Joined (bucket : nat)
| Started (bucket : nat).

(** The first loop of [executePlanOld]; it returns the in-flight map as it
    stands when the loop ends or throws. *)
Fixpoint oldLoop (plan : XPlan) (s : list ((nat * nat) * Value)) (infl : list (nat * nat))
    (prs : list PlanResultsEntry) (slots : list Slot) : list (nat * nat) * result (list Slot) :=
  match prs with
  | [] => (infl, Ok slots)
  | PRNull :: rest => oldLoop plan s infl rest (slots ++ [Filled Null])
  | PRCrystalError e :: rest => oldLoop plan s infl rest (slots ++ [Filled (CrystalErrorV e)])
  | PR b :: rest =>
      match bucketGet s b (xid plan) with
      | Some v => oldLoop plan s infl rest (slots ++ [Filled v])
      | None =>
          if isValuePlan plan then (infl, Throw valuePlanError)
          else if inflightHas infl (xid plan) b then oldLoop plan s infl rest (slots ++ [Joined b])
          else oldLoop plan s ((xid plan, b) :: infl) rest (slots ++ [Started b])
      end
  end.

Definition startedBuckets (slots : list Slot) : list nat :=
  flat_map (fun sl => match sl with Started b => [b] | _ => [] end) slots.
Definition joinedBuckets (slots : list Slot) : list nat :=
  flat_map (fun sl => match sl with Joined b => [b] | _ => [] end) slots.

Fixpoint indexOf (b : nat) (l : list nat) : nat :=
  match l with
  | [] => 0
  | x :: l' => if Nat.eqb x b then 0 else S (indexOf b l')
  end.

Inductive SlotResult :=
| SRValue (v : Value)
| SRReject (error : nat)
| SRWaiting.

(** How a slot settles: a pending index takes [pendingResults[i]] or, on
    rejection, [new CrystalError(error)]; a joined deferred of this call is
    resolved or rejected with the pending outcome; a deferred of another
    call is still waited on. *)
Definition settleSlot (pendingBuckets : list nat) (outcome : Settled) (sl : Slot) : SlotResult :=
  match sl with
  | Filled v => SRValue v
  | Started b =>
      match outcome with
      | SFulfilled rs => SRValue (nth (indexOf b pendingBuckets) rs Undefined)
      | SRejected e => SRValue (CrystalErrorV e)
      end
  | Joined b =>
      if existsb (Nat.eqb b) pendingBuckets then
        match outcome with
        | SFulfilled rs => SRValue (nth (indexOf b pendingBuckets) rs Undefined)
        | SRejected e => SRReject e
        end
      else SRWaiting
  end.

(** [Promise.all([handlePendingPromise, handleInProgressPromise])]: the
    pending handler never rejects; [Promise.all(inProgressDeferreds)]
    rejects as soon as one joined deferred rejects. *)
Definition combineSlots (rs : list SlotResult) : CallResult :=
  match find (fun r => match r with SRReject _ => true | _ => false end) rs with
  | Some (SRReject e) => Rejected e
  | _ =>
      if existsb (fun r => match r with SRWaiting => true | _ => false end) rs then Waiting
      else Fulfilled (map (fun r => match r with SRValue v => v | _ => Undefined end) rs)
  end.

Definition slotValue (sl : Slot) : Value :=
  match sl with Filled v => v | _ => Undefined end.

Definition executePlanOld (execute : nat -> ExecOutcome) (plan : XPlan) (st : ExecState)
    (prs : list PlanResultsEntry) : ExecState * CallResult :=
  if isItemPlan plan then (st, Direct (map (itemValue plan (store st)) prs)) else
  let (infl, r) := oldLoop plan (store st) (inflight st) prs [] in
  let st1 := mkExecState (store st) infl (executeLog st) in
  match r with
  | Throw m => (st1, SyncThrow m)
  | Ok slots =>
      let pend := startedBuckets slots in
      match pend, joinedBuckets slots with
      | [], [] => (st1, Direct (map slotValue slots))
      | _, _ =>
          let (st2, outcome) := executePlanPending execute plan st1 pend in
          let st3 := mkExecState (store st2)
                       (fold_left (fun i b => inflightDelete i (xid plan) b) pend (inflight st2))
                       (executeLog st2) in
          (st3, combineSlots (map (settleSlot pend outcome) slots))
      end
  end.

(** The first loop of [executePlanAlt]: [planResultsesByBucket], the
    indexes grouped by bucket in order of first appearance. *)
Definition addToGroup (b i : nat) (groups : list (nat * list nat)) : list (nat * list nat) :=
  if existsb (fun g => Nat.eqb (fst g) b) groups
  then map (fun g => if Nat.eqb (fst g) b then (fst g, snd g ++ [i]) else g) groups
  else groups ++ [(b, [i])].

Fixpoint groupByBucket (prs : list PlanResultsEntry) (i : nat) (groups : list (nat * list nat))
  : list (nat * list nat) :=
  match prs with
  | [] => groups
  | PR b :: rest => groupByBucket rest (S i) (addToGroup b i groups)
  | _ :: rest => groupByBucket rest (S i) groups
  end.

(** The writes into [result] for the [null] and [CrystalError] entries. *)
Fixpoint initialWrites (prs : list PlanResultsEntry) (i : nat) : list (nat * Value) :=
  match prs with
  | [] => []
  | PRNull :: rest => (i, Null) :: initialWrites rest (S i)
  | PRCrystalError e :: rest => (i, CrystalErrorV e) :: initialWrites rest (S i)
  | PR _ :: rest => initialWrites rest (S i)
  end.

(** [result] after a list of writes [(index, value)], later writes winning. *)
Definition resultOf (n : nat) (writes : list (nat * Value)) : list Value :=
  map (fun i => match find (fun w => Nat.eqb (fst w) i) (rev writes) with
                | Some w => snd w
                | None => Undefined
                end) (seq 0 n).

(** The second loop of [executePlanAlt]: buckets that already hold a value
    fill their indexes; the others are pending. *)
Fixpoint altLoop (plan : XPlan) (s : list ((nat * nat) * Value)) (groups : list (nat * list nat))
    (writes : list (nat * Value)) (pending : list (nat * list nat))
  : result (list (nat * Value) * list (nat * list nat)) :=
  match groups with
  | [] => Ok (writes, pending)
  | (b, idxs) :: rest =>
      match bucketGet s b (xid plan) with
      | Some v => altLoop plan s rest (writes ++ map (fun i => (i, v)) idxs) pending
      | None =>
          if isValuePlan plan then Throw valuePlanError
          else altLoop plan s rest writes (pending ++ [(b, idxs)])
      end
  end.

(** [executePlanAlt] for a plan without dependencies: [dependencyPromises]
    is empty, so [doNext] runs at once.  A synchronous plan is executed here
    (a throw becomes one [CrystalError] for every pending bucket, written to
    the result and to the bucket); any other plan goes to
    [executePlanOld] with the original [planResultses]. *)
Definition executePlanAlt (execute : nat -> ExecOutcome) (plan : XPlan) (st : ExecState)
    (prs : list PlanResultsEntry) : ExecState * CallResult :=
  if isItemPlan plan then (st, Direct (map (itemValue plan (store st)) prs)) else
  let n := List.length prs in
  match altLoop plan (store st) (groupByBucket prs 0 []) (initialWrites prs 0) [] with
  | Throw m => (st, SyncThrow m)
  | Ok (writes, []) => (st, Direct (resultOf n writes))
  | Ok (writes, pending) =>
      if sync plan && negb (isListTransformPlan plan) then
        let (st1, out) := invokeExecute execute plan st in
        let value := match out with
                     | Throws e => CrystalErrorV e
                     | Returns vals => nth 0 vals Undefined
                     end in
        (mkExecState (fold_left (fun s g => bucketSet s (fst g) (xid plan) value) pending (store st1))
                     (inflight st1) (executeLog st1),
         Direct (resultOf n (writes ++ flat_map (fun g => map (fun i => (i, value)) (snd g)) pending)))
      else executePlanOld execute plan st prs
  end.

(** [executePlan]: the per-[planResultses] cache [planCacheForPlanResultses]
    (plan id to the returned result) in front of [executePlanAlt]. *)
Definition executePlan (execute : nat -> ExecOutcome) (cache : list (nat * CallResult))
    (st : ExecState) (plan : XPlan) (prs : list PlanResultsEntry)
  : ExecState * CallResult * list (nat * CallResult) :=
  match find (fun kv => Nat.eqb (fst kv) (xid plan)) cache with
  | Some kv => (st, snd kv, cache)
  | None =>
      let (st', r) := executePlanAlt execute plan st prs in
      match r with
      | SyncThrow _ => (st', r, cache)
      | _ => (st', r, (xid plan, r) :: cache)
      end
  end.

(** Scenarios: plan [_5] without dependencies, asynchronous or synchronous;
    parents whose [PlanResults] share bucket [7] at its common-ancestor path
    identity; an [execute] that throws error [42], and one that throws on its
    first call and returns [[Data 1]] afterwards. *)
Definition asyncPlan : XPlan := mkXPlan 5 XOther false.
Definition syncPlan : XPlan := mkXPlan 5 XOther true.
Definition emptyState : ExecState := mkExecState [] [] [].
Definition rejectingExecute (n : nat) : ExecOutcome := Throws 42.
Definition flakyExecute (n : nat) : ExecOutcome :=
  match n with
  | 0 => Throws 42
  | S _ => Returns [Data 1]
  end.
Definition steadyExecute (n : nat) : ExecOutcome := Returns [Data 1].

End Executor.

(** * The side-effect chain of [executeBatchForPlanResultses]

    [chain = chain.then(() => this.executePlan(sideEffectPlan, ...))] for
    each side-effect plan in order, then
    [chain.then(() => this.executeBatchInner(...))].  A promise is modelled
    by the time it settles, whether it fulfils, and the events it records:
    the start and end of each plan execution.  [latency p] is how long the
    execution of plan [p] takes and [fulfils p] whether its promise fulfils
    (it rejects on a throw). *)

Module SideEffectChain.

Inductive Event :=
| Start (plan : nat) (time : nat)
| End (plan : nat) (time : nat).

Record TimedPromise := mkTimed { settleTime : nat; fulfilledP : bool; events : list Event }.

(** [Promise.resolve()] at time [t] *)
Definition resolveAt (t : nat) : TimedPromise := mkTimed t true [].

(** [p.then(f)]: [f] runs when [p] fulfils and the result adopts [f]'s
    promise; a rejection passes through. *)
Definition thenP (p : TimedPromise) (f : nat -> TimedPromise) : TimedPromise :=
  if fulfilledP p then
    let q := f (settleTime p) in
    mkTimed (settleTime q) (fulfilledP q) (events p ++ events q)
  else p.

Definition executePlanAt (latency : nat -> nat) (fulfils : nat -> bool) (p : nat) (t : nat)
  : TimedPromise :=
  mkTimed (t + latency p) (fulfils p) [Start p t; End p (t + latency p)].

(** [executeBatchInner] starting: the field's main plan and item-plan
    layers begin. *)
Definition executeBatchInnerAt (mainPlan : nat) (t : nat) : TimedPromise :=
  mkTimed t true [Start mainPlan t].

Definition executeBatchForPlanResultses (latency : nat -> nat) (fulfils : nat -> bool)
    (mainPlan : nat) (t0 : nat) (sideEffectPlans : list nat) : TimedPromise :=
  match sideEffectPlans with
  | [] => executeBatchInnerAt mainPlan t0
  | _ :: _ =>
      let chain := fold_left (fun chain sideEffectPlan =>
                                thenP chain (executePlanAt latency fulfils sideEffectPlan))
                             sideEffectPlans (resolveAt t0) in
      thenP chain (executeBatchInnerAt mainPlan)
  end.

(** Vocabulary for the statement: a trace of executions each starting no
    earlier than the previous one ended and ending no earlier than it
    started, possibly followed by one last start. *)
Fixpoint Sequential (t : nat) (tr : list Event) : Prop :=
  match tr with
  | [] => True
  | [Start _ s] => t <= s
  | Start p s :: End p' e :: rest => p = p' /\ t <= s /\ s <= e /\ Sequential e rest
  | _ => False
  end.

Definition startedPlans (tr : list Event) : list nat :=
  flat_map (fun ev => match ev with Start p _ => [p] | End _ _ => [] end) tr.

(** The side-effect plans up to and including the first whose promise
    rejects. *)
Fixpoint upToFirstRejection (fulfils : nat -> bool) (ps : list nat) : list nat :=
  match ps with
  | [] => []
  | p :: rest => p :: (if fulfils p then upToFirstRejection fulfils rest else [])
  end.

End SideEffectChain.

(** * Further methods of [Aether] and helpers of [aether.ts] *)

Module Lookup.
Import Compiler.


(** ** [Aether.findPath] *)

(** The [_pathByDescendent] maps of all plans: [((ancestorPlan,
    descendentPlan), known)], newest first; [known] is a path or [null]. *)
Definition PathCache := list ((ExecutablePlan * ExecutablePlan) * option (list ExecutablePlan)).

(** [ancestorPlan._pathByDescendent.get(descendentPlan)], [None] for
    undefined. *)
Fixpoint cacheGet (c : PathCache) (ancestorPlan descendentPlan : ExecutablePlan)
  : option (option (list ExecutablePlan)) :=
  match c with
  | [] => None
  | ((x, y), known) :: c' =>
      if planEqb x ancestorPlan && planEqb y descendentPlan then Some known
      else cacheGet c' ancestorPlan descendentPlan
  end.

Definition cacheSet (c : PathCache) (ancestorPlan descendentPlan : ExecutablePlan)
    (known : option (list ExecutablePlan)) : PathCache :=
  ((ancestorPlan, descendentPlan), known) :: c.

(** [descendentPlan instanceof __ValuePlan] *)
Definition isValuePlanClass (p : ExecutablePlan) : bool :=
  PlanClass_eqb (constructor_ p) ValuePlan.

Section FindPathDeps.
Variable a : Aether.
Variables ancestorPlan descendentPlan : ExecutablePlan.
  (** The recursive call [this.findPath(ancestorPlan, depPlan)]. *)
Variable findPathRec : PathCache -> option ExecutablePlan
                       -> result (PathCache * option (list ExecutablePlan)).

  (** The [for] loop over [descendentPlan.dependencies]; a path [p] found
      for a dependency is truthy even when empty. *)
Fixpoint findPathDeps (ds : list nat) (c : PathCache)
    : result (PathCache * option (list ExecutablePlan)) :=
    match ds with
    | [] => Ok (cacheSet c ancestorPlan descendentPlan None, None)
    | d :: rest =>
        let depPlan := lookupPlan (plans a) d in
        if optPlanEqb depPlan (Some ancestorPlan) then
          Ok (cacheSet c ancestorPlan descendentPlan (Some [descendentPlan]),
              Some [descendentPlan])
        else
          r <- findPathRec c depPlan ;;
          match r with
          | (c1, Some p) =>
              Ok (cacheSet c1 ancestorPlan descendentPlan (Some (p ++ [descendentPlan])),
                  Some (p ++ [descendentPlan]))
          | (c1, None) => findPathDeps rest c1
          end
    end.
End FindPathDeps.

(** [Aether.findPath(ancestorPlan, descendentPlan)]; the descendant is
    [this.plans[depId]] in the recursive calls, so it may be null.  [fuel]
    bounds the recursion depth (the JS call stack). *)
Fixpoint findPath (fuel : nat) (a : Aether) (c : PathCache) (ancestorPlan : ExecutablePlan)
    (descendentPlan : option ExecutablePlan)
    : result (PathCache * option (list ExecutablePlan)) :=
  match fuel with
  | 0 => Throw "Maximum call stack size exceeded"
  | S f =>
      match descendentPlan with
      | None =>
          if Phase_eq_dec (phase a) ready
          then Throw "Cannot read properties of undefined (reading 'dependencies')"
          else Throw "Only call findPath when aether is ready"
      | Some desc =>
          match cacheGet c ancestorPlan desc with
          | Some known => Ok (c, known)
          | None =>
              if planEqb ancestorPlan desc then Ok (c, Some [])
              else if isValuePlanClass desc then Ok (c, Some [])
              else if Phase_eq_dec (phase a) ready
              then findPathDeps a ancestorPlan desc (fun c1 d1 => findPath f a c1 ancestorPlan d1)
                     (dependencies desc) c
              else Throw "Only call findPath when aether is ready"
          end
      end
  end.


(** ** Modifier plans: [Aether._addModifierPlan] and [planFieldArguments] *)

(** The fields [phase], [modifierPlanCount] and [modifierPlans]. *)
Record ModifierState (M : Type) := mkModifierState {
  modifierPhase : Phase;
  modifierPlanCount : nat;
  modifierPlans : list M;
}.
Arguments mkModifierState {M}.
Arguments modifierPhase {M}.
Arguments modifierPlanCount {M}.
Arguments modifierPlans {M}.

(** [Aether._addModifierPlan]: returns the id [_${this.modifierPlanCount++}]
    (modelled by its number) and pushes the plan. *)
Definition _addModifierPlan {M} (s : ModifierState M) (p : M)
  : result (nat * ModifierState M) :=
  if negb (planCreationAllowed (modifierPhase s)) then
    Throw "Creating a plan during this phase is forbidden."
  else
    Ok (modifierPlanCount s,
        mkModifierState (modifierPhase s) (S (modifierPlanCount s)) (modifierPlans s ++ [p])).

(** The modifier-plan bookkeeping of [Aether.planFieldArguments]: the
    assertion that no modifier plan is pending, the modifier plans created
    while the arguments' plan resolvers run ([created], in creation order;
    each registers itself through [_addModifierPlan]), then
    [this.modifierPlans.splice(0, length).reverse()] and the reset of
    [modifierPlanCount].  Returns the ids handed out, the plans in the
    order they are applied, and the state afterwards. *)
Definition planFieldArgumentsModifiers {M} (s : ModifierState M) (created : list M)
  : result (list nat * list M * ModifierState M) :=
  match modifierPlans s with
  | _ :: _ => Throw "Expected Aether.modifierPlans to be empty"
  | [] =>
      r <- foldM (fun acc p =>
                    r1 <- _addModifierPlan (snd acc) p ;;
                    Ok (fst acc ++ [fst r1], snd r1)) created ([], s) ;;
      let '(ids, s2) := r in
      Ok (ids, rev (modifierPlans s2), mkModifierState (modifierPhase s2) 0 [])
  end.

(** ** [isTypePlanned] *)




(** ** The callback of [Aether.assignGroupIds] *)

(** For one usage of a plan at a tree node: look up
    [this.groupIdsByPathIdentity[treeNode.fieldPathIdentity]] (asserted
    non-null) and push each group id not yet in [plan.groupIds]. *)
Definition assignGroupIdsCallback (groupIdsByPathIdentity : list (string * list nat))
    (fieldPathIdentity : string) (planGroupIds : list nat) : result (list nat) :=
  match find (fun kv => String.eqb (fst kv) fieldPathIdentity) groupIdsByPathIdentity with
  | None =>
      Throw ("Could not determine the group ids for path identity '" ++ fieldPathIdentity ++ "'")
  | Some kv => Ok (fold_left setAdd (snd kv) planGroupIds)
  end.

(** A plan table in the ready phase: [_2] depends on [_1] and [_3] on [_2];
    [_4] is a [__ValuePlan] and [_5] depends on it. *)
Definition fpRoot := mkPlan 1 (OtherPlan 0) "" [] false [].
Definition fpMid := mkPlan 2 (OtherPlan 1) "" [1] false [].
Definition fpLeaf := mkPlan 3 (OtherPlan 2) "" [2] false [].
Definition fpValue := mkPlan 4 ValuePlan "" [] false [].
Definition fpFromValue := mkPlan 5 (OtherPlan 3) "" [4] false [].
Definition fpAether : Aether :=
  mkAether ready 5 [(1, Some fpRoot); (2, Some fpMid); (3, Some fpLeaf);
                    (4, Some fpValue); (5, Some fpFromValue)] [] None [] [] [] [].

End Lookup.

(** * [dotEscape] *)

Module DotEscape.

Definition dquote : ascii := "034"%char.
Definition lf : ascii := "010"%char.
Definition cr : ascii := "013"%char.

Definition isPlainChar (c : ascii) : bool :=
  let n := nat_of_ascii c in
  (Nat.leb 97 n && Nat.leb n 122) || (Nat.leb 65 n && Nat.leb n 90)
  || (Nat.leb 48 n && Nat.leb n 57) || Nat.eqb n 32.

Fixpoint allPlain (s : string) : bool :=
  match s with
  | EmptyString => true
  | String c s' => isPlainChar c && allPlain s'
  end.

(** [str.match(/^[a-z0-9 ]+$/i)] is truthy. *)
Definition matchesPlain (s : string) : bool :=
  match s with
  | EmptyString => false
  | _ => allPlain s
  end.

(** The first [.replace]: every [#] becomes [#35;] and every double quote
    becomes [#quot;]. *)
Fixpoint escapeHashQuote (s : string) : string :=
  match s with
  | EmptyString => EmptyString
  | String c s' =>
      if Ascii.eqb c "#"%char then "#35;" ++ escapeHashQuote s'
      else if Ascii.eqb c dquote then "#quot;" ++ escapeHashQuote s'
      else String c (escapeHashQuote s')
  end.

(** [.replace(/\r?\n/g, "<br />")] *)
Fixpoint escapeNewlines (s : string) : string :=
  match s with
  | EmptyString => EmptyString
  | String c s' =>
      if Ascii.eqb c cr then
        match s' with
        | String c2 s'' =>
            if Ascii.eqb c2 lf then "<br />" ++ escapeNewlines s''
            else String c (escapeNewlines s')
        | EmptyString => String c EmptyString
        end
      else if Ascii.eqb c lf then "<br />" ++ escapeNewlines s'
      else String c (escapeNewlines s')
  end.

Section DotEscapeDef.
  (** [stripAnsi] of [./stripAnsi], not among the sources: any function. *)
Variable stripAnsi : string -> string.

Definition dotEscape (str : string) : string :=
    if matchesPlain str then str
    else String dquote (escapeNewlines (escapeHashQuote (stripAnsi str))
                        ++ String dquote EmptyString).
End DotEscapeDef.

End DotEscape.

(** * [Aether.finalizePlans]

    The ids of the plan table are walked in reverse; every plan that is not
    [null] is added to the set [distinctActivePlansInReverseOrder], whose
    iteration order (first insertion) is the order in which [finalize] is
    called. *)

Module Finalize.
Import Compiler.

Definition finalizeOrder (a : Aether) : list ExecutablePlan :=
  fold_left (fun distinct i =>
               match lookupPlan (plans a) i with
               | Some p => if memPlan p distinct then distinct else distinct ++ [p]
               | None => distinct
               end)
            (rev (getPlanIds a 0)) [].

End Finalize.

(** * [Aether.walkTreeFirstPlanUsages]

    The walk visits the tree of [TreeNode]s from the root; at each node it
    processes the node's plan (and, at the root, the subscription plan),
    calling back for every plan not yet known on the way down and then for
    its dependencies; each child is walked with a copy of the set of known
    plans.  A [__ListTransformPlan] first adds a tree node for its items
    under the current node.  The callback records each call as the child
    indexes leading from the root to the tree node, and the plan. *)

Module Walk.
Import Compiler.

Fixpoint decimalDigits (fuel n : nat) (acc : string) : string :=
  match fuel with
  | 0 => acc
  | S f =>
      let acc' := String (ascii_of_nat (48 + n mod 10)) acc in
      if Nat.ltb n 10 then acc' else decimalDigits f (n / 10) acc'
  end.

(** A plan id as the string [_${n}]. *)
Definition planIdString (n : nat) : string := "_" ++ decimalDigits (S n) n "".

Inductive WalkNode :=
| mkWalkNode (pathIdentity : string) (fieldPathIdentity : string) (children : list WalkNode).

Definition pathIdentity (n : WalkNode) : string :=
  match n with mkWalkNode p _ _ => p end.
Definition fieldPathIdentity (n : WalkNode) : string :=
  match n with mkWalkNode _ f _ => f end.
Definition children (n : WalkNode) : list WalkNode :=
  match n with mkWalkNode _ _ cs => cs end.

(** [this.planIdByPathIdentity] (an entry may hold [undefined]) and the
    calls of the callback, oldest first. *)
Record WalkState := mkWalkState {
  planIdByPathIdentity : list (string * option nat);
  reports : list (list nat * option ExecutablePlan)
}.

Definition planIdOf (m : list (string * option nat)) (k : string) : option nat :=
  match find (fun kv => String.eqb (fst kv) k) m with
  | Some kv => snd kv
  | None => None
  end.

(** [this.transformDependencyPlanIdByTransformPlanId[plan.id]] *)
Definition transformDependencyOf (a : Aether) (pid : nat) : option nat :=
  match find (fun kv => Nat.eqb (fst kv) pid) (transformDependencyPlanIdByTransformPlanId a) with
  | Some kv => Some (snd kv)
  | None => None
  end.

Section WalkDef.
Variable a : Aether.
(** [this.subscriptionPlanId] *)
Variable subscriptionPlanId : option nat.

(** The [if (plan instanceof __ListTransformPlan)] block of [processPlan]. *)
Definition addTransformNode (node : WalkNode) (st : WalkState) (p : ExecutablePlan)
  : WalkNode * WalkState :=
  if PlanClass_eqb (constructor_ p) ListTransformPlan then
    let transformPathIdentity := (pathIdentity node ++ "@" ++ planIdString (id p) ++ "[]")%string in
    if existsb (fun c => String.eqb (pathIdentity c) transformPathIdentity) (children node)
    then (node, st)
    else (mkWalkNode (pathIdentity node) (fieldPathIdentity node)
            (children node ++ [mkWalkNode transformPathIdentity (fieldPathIdentity node) []]),
          mkWalkState ((transformPathIdentity, transformDependencyOf a (id p))
                         :: planIdByPathIdentity st) (reports st))
  else (node, st).

(** [processPlan]: [plan] is [this.plans[...]], [None] when missing or
    [null]; reading [dependencies] of it then throws. *)
Fixpoint processPlan (fuel : nat) (branch : list nat) (node : WalkNode)
    (known : list (option ExecutablePlan)) (st : WalkState) (plan : option ExecutablePlan)
  : result (WalkNode * list (option ExecutablePlan) * WalkState) :=
  match fuel with
  | 0 => Throw "Maximum call stack size exceeded"
  | S f =>
      if existsb (optPlanEqb plan) known then Ok (node, known, st)
      else
        let '(node1, st1) := match plan with
                             | Some p => addTransformNode node st p
                             | None => (node, st)
                             end in
        let st2 := mkWalkState (planIdByPathIdentity st1) (reports st1 ++ [(branch, plan)]) in
        let known2 := known ++ [plan] in
        match plan with
        | None => Throw "Cannot read properties of undefined (reading 'dependencies')"
        | Some p =>
            foldM (fun acc depId =>
                     let '(n, k, s) := acc in
                     processPlan f branch n k s (lookupPlan (plans a) depId))
                  (dependencies p) (node1, known2, st2)
        end
  end.

(** [treeNode.children.forEach((child) => recurse(child, new Set(knownPlans)))] *)
Fixpoint walkChildren
    (rec : list nat -> WalkNode -> list (option ExecutablePlan) -> WalkState
           -> result (WalkNode * WalkState))
    (branch : list nat) (i : nat) (cs : list WalkNode)
    (known : list (option ExecutablePlan)) (st : WalkState)
  : result (list WalkNode * WalkState) :=
  match cs with
  | [] => Ok ([], st)
  | c :: cs' =>
      r <- rec (branch ++ [i]) c known st ;;
      let '(c', st1) := r in
      r2 <- walkChildren rec branch (S i) cs' known st1 ;;
      let '(cs'', st2) := r2 in
      Ok (c' :: cs'', st2)
  end.

(** [recurse]: the root is the node reached by the empty branch. *)
Fixpoint recurse (fuel : nat) (branch : list nat) (node : WalkNode)
    (known : list (option ExecutablePlan)) (st : WalkState) : result (WalkNode * WalkState) :=
  match fuel with
  | 0 => Throw "Maximum call stack size exceeded"
  | S f =>
      r0 <- match branch, subscriptionPlanId with
            | [], Some sid =>
                match lookupPlan (plans a) sid with
                | Some subscriptionPlan => processPlan fuel branch node known st (Some subscriptionPlan)
                | None => Throw "Could not find the plan for the subscription"
                end
            | _, _ => Ok (node, known, st)
            end ;;
      let '(node1, known1, st1) := r0 in
      match planIdOf (planIdByPathIdentity st1) (pathIdentity node1) with
      | None => Throw "Could not determine the item plan id for path identity"
      | Some treeNodePlanId =>
          match lookupPlan (plans a) treeNodePlanId with
          | None => Throw "Could not find the plan for path identity"
          | Some treeNodePlan =>
              r1 <- processPlan fuel branch node1 known1 st1 (Some treeNodePlan) ;;
              let '(node2, known2, st2) := r1 in
              r2 <- walkChildren (recurse f) branch 0 (children node2) known2 st2 ;;
              let '(cs, st3) := r2 in
              Ok (mkWalkNode (pathIdentity node2) (fieldPathIdentity node2) cs, st3)
          end
      end
  end.

Definition walkTreeFirstPlanUsages (fuel : nat) (rootTreeNode : WalkNode)
    (planIdByPathIdentity0 : list (string * option nat)) : result (WalkNode * WalkState) :=
  recurse fuel [] rootTreeNode [] (mkWalkState planIdByPathIdentity0 []).

End WalkDef.

(** A root with the fields [>a] and [>b], whose plans both depend on the
    root's plan, and [>c], whose plan is a list transform over the root's
    plan with [_2] as its per-item dependency. *)
Definition wRootPlan := mkPlan 1 (OtherPlan 0) "" [] false [].
Definition wPlanA := mkPlan 2 (OtherPlan 1) "" [1] false [].
Definition wPlanB := mkPlan 3 (OtherPlan 1) "" [1] false [].
Definition wTransform := mkPlan 4 ListTransformPlan "" [1] false [].
Definition wAether : Aether :=
  mkAether ready 4 [(1, Some wRootPlan); (2, Some wPlanA); (3, Some wPlanB); (4, Some wTransform)]
           [] None [] [] [(4, 2)] [].
Definition wTree : WalkNode :=
  mkWalkNode "" "" [mkWalkNode ">a" ">a" []; mkWalkNode ">b" ">b" []; mkWalkNode ">c" ">c" []].
Definition wPlanIds : list (string * option nat) :=
  [("", Some 1); (">a", Some 2); (">b", Some 3); (">c", Some 4)].

End Walk.

(** * Facts about the compiler passes *)

Module CompilerFacts.
Import Compiler.

Lemma planEqb_true (x y : ExecutablePlan) : planEqb x y = true <-> x = y.
Proof.
  unfold planEqb. destruct (ExecutablePlan_eq_dec x y); split; congruence.
Qed.

Lemma memPlan_In (p : ExecutablePlan) (s : list ExecutablePlan) :
  memPlan p s = true <-> In p s.
Proof.
  unfold memPlan. rewrite existsb_exists. split.
  - intros [x [Hin Heq]]. apply planEqb_true in Heq. subst. exact Hin.
  - intros Hin. exists p. split; [exact Hin | apply planEqb_true; reflexivity].
Qed.

Lemma memPlan_false (p : ExecutablePlan) (s : list ExecutablePlan) :
  memPlan p s = false <-> ~ In p s.
Proof.
  rewrite <- memPlan_In. destruct (memPlan p s); split; congruence.
Qed.

(** ** Replacement counting *)

Section NoReplacement.
Variable order : Order.
Variable callback : Aether -> ExecutablePlan -> result (Aether * ExecutablePlan).
  (** The callback leaves the compiler state alone (true of the
      deduplicate callback, which only reads it). *)
Hypothesis callback_pure :
    forall a p a' r, callback a p = Ok (a', r) -> a' = a.

Definition countsReplacements
      (proc : Aether -> list ExecutablePlan -> nat -> ExecutablePlan
              -> result (Aether * list ExecutablePlan * nat)) : Prop :=
    forall a pr reps p a' pr' reps',
      proc a pr reps p = Ok (a', pr', reps') ->
      reps <= reps' /\ (reps' = reps -> a' = a).

Lemma processFirst_counts proc plan :
    countsReplacements proc ->
    forall ids a pr reps a' pr' reps' ab,
      processFirst proc plan ids a pr reps = Ok (a', pr', reps', ab) ->
      reps <= reps' /\ (reps' = reps -> a' = a).
  Proof.
    intros Hproc ids. induction ids as [|d ids IH]; intros a pr reps a' pr' reps' ab H;
      simpl in H.
    - inversion H; subst. split; auto.
    - destruct (lookupPlan (plans a) d) as [dp|].
      + destruct (memPlan dp pr).
        * eapply IH; eauto.
        * destruct (proc a pr reps dp) as [[[a1 pr1] reps1]|m] eqn:E; simpl in H;
            [|discriminate].
          destruct (Hproc _ _ _ _ _ _ _ E) as [Hle Heq].
          destruct (shouldAbort a1 plan).
          -- inversion H; subst. split; auto.
          -- destruct (IH _ _ _ _ _ _ _ H) as [Hle2 Heq2].
             split; [lia|]. intros Hr. assert (reps1 = reps) by lia.
             rewrite Heq2 by lia. apply Heq. assumption.
      + eapply IH; eauto.
  Qed.

Lemma process_counts fuel : countsReplacements (process order callback None fuel).
  Proof.
    induction fuel as [|f IH]; intros a pr reps p a' pr' reps' H; simpl in H;
      [discriminate|].
    destruct (memPlan p pr).
    - inversion H; subst. split; auto.
    - destruct (firstIds order a p) as [first|m]; simpl in H; [|discriminate].
      destruct (processFirst (process order callback None f) p first a pr reps)
        as [[[[a1 pr1] reps1] ab]|m] eqn:E; simpl in H; [|discriminate].
      destruct (processFirst_counts _ p IH _ _ _ _ _ _ _ _ E) as [Hle Heq].
      destruct ab.
      + inversion H; subst. split; auto.
      + destruct (callback a1 p) as [[a2 r]|m] eqn:Ecb; simpl in H; [|discriminate].
        apply callback_pure in Ecb. subst a2.
        destruct (planEqb r p).
        * inversion H; subst. split; auto.
        * inversion H; subst. split; [lia|]. intros. lia.
  Qed.

Lemma processIds_counts fuel :
    forall ids a pr reps a' reps',
      processIds order callback None fuel a pr reps ids = Ok (a', reps') ->
      reps <= reps' /\ (reps' = reps -> a' = a).
  Proof.
    intros ids. induction ids as [|i ids IH]; intros a pr reps a' reps' H; simpl in H.
    - inversion H; subst. split; auto.
    - destruct (lookupPlan (plans a) i) as [p|].
      + destruct (process order callback None fuel a pr reps p) as [[[a1 pr1] reps1]|m]
          eqn:E; simpl in H; [|discriminate].
        destruct (process_counts fuel _ _ _ _ _ _ _ E) as [Hle Heq].
        destruct (IH _ _ _ _ _ H) as [Hle2 Heq2].
        split; [lia|]. intros Hr. rewrite Heq2 by lia. apply Heq. lia.
      + eapply IH; eauto.
  Qed.

Lemma processPlans_no_replacement a offset a' :
    processPlans order callback None a offset = Ok (a', 0) -> a' = a.
  Proof.
    unfold processPlans. intros H.
    destruct (processIds_counts _ _ _ _ _ _ _ H) as [_ Heq]. apply Heq. reflexivity.
  Qed.
End NoReplacement.

Lemma deduplicateCallback_pure dm a p a' r :
  deduplicateCallback dm a p = Ok (a', r) -> a' = a.
Proof.
  unfold deduplicateCallback. destruct (deduplicatePlan dm a p); simpl; intros H;
    inversion H; reflexivity.
Qed.

(** ** Invariants of a pass *)

Section Preserve.
Variable order : Order.
Variable callback : Aether -> ExecutablePlan -> result (Aether * ExecutablePlan).
Variable onPlanReplacement : option (Aether -> result Aether).
Variable Inv : Aether -> Prop.
Hypothesis callback_inv :
    forall a p a' r, Inv a -> callback a p = Ok (a', r) -> Inv a'.
Hypothesis replacement_inv :
    forall g a a', onPlanReplacement = Some g -> Inv a -> g a = Ok a' -> Inv a'.
Hypothesis setPlans_inv : forall a t, Inv a -> Inv (setPlans a t).

Definition keepsInv
      (proc : Aether -> list ExecutablePlan -> nat -> ExecutablePlan
              -> result (Aether * list ExecutablePlan * nat)) : Prop :=
    forall a pr reps p a' pr' reps',
      Inv a -> proc a pr reps p = Ok (a', pr', reps') -> Inv a'.

Lemma processFirst_inv proc plan :
    keepsInv proc ->
    forall ids a pr reps a' pr' reps' ab,
      Inv a -> processFirst proc plan ids a pr reps = Ok (a', pr', reps', ab) -> Inv a'.
  Proof.
    intros Hproc ids. induction ids as [|d ids IH]; intros a pr reps a' pr' reps' ab HI H;
      simpl in H.
    - inversion H; subst. exact HI.
    - destruct (lookupPlan (plans a) d) as [dp|].
      + destruct (memPlan dp pr).
        * eapply IH; eauto.
        * destruct (proc a pr reps dp) as [[[a1 pr1] reps1]|m] eqn:E; simpl in H;
            [|discriminate].
          pose proof (Hproc _ _ _ _ _ _ _ HI E) as HI1.
          destruct (shouldAbort a1 plan).
          -- inversion H; subst. exact HI1.
          -- eapply IH; eauto.
      + eapply IH; eauto.
  Qed.

Lemma process_inv fuel : keepsInv (process order callback onPlanReplacement fuel).
  Proof.
    induction fuel as [|f IH]; intros a pr reps p a' pr' reps' HI H; simpl in H;
      [discriminate|].
    destruct (memPlan p pr).
    - inversion H; subst. exact HI.
    - destruct (firstIds order a p) as [first|m]; simpl in H; [|discriminate].
      destruct (processFirst (process order callback onPlanReplacement f) p first a pr reps)
        as [[[[a1 pr1] reps1] ab]|m] eqn:E; simpl in H; [|discriminate].
      pose proof (processFirst_inv _ p IH _ _ _ _ _ _ _ _ HI E) as HI1.
      destruct ab.
      + inversion H; subst. exact HI1.
      + destruct (callback a1 p) as [[a2 r]|m] eqn:Ecb; simpl in H; [|discriminate].
        pose proof (callback_inv _ _ _ _ HI1 Ecb) as HI2.
        destruct (planEqb r p).
        * inversion H; subst. exact HI2.
        * destruct onPlanReplacement as [g|] eqn:Eg; simpl in H.
          -- destruct (g _) as [a4|m] eqn:Eg4; simpl in H; [|discriminate].
             inversion H; subst.
             eapply replacement_inv; [reflexivity| |exact Eg4]. apply setPlans_inv, HI2.
          -- inversion H; subst. apply setPlans_inv, HI2.
  Qed.

Lemma processIds_inv fuel :
    forall ids a pr reps a' reps',
      Inv a -> processIds order callback onPlanReplacement fuel a pr reps ids = Ok (a', reps') ->
      Inv a'.
  Proof.
    intros ids. induction ids as [|i ids IH]; intros a pr reps a' reps' HI H; simpl in H.
    - inversion H; subst. exact HI.
    - destruct (lookupPlan (plans a) i) as [p|].
      + destruct (process order callback onPlanReplacement fuel a pr reps p)
          as [[[a1 pr1] reps1]|m] eqn:E; simpl in H; [|discriminate].
        eapply IH; [|exact H]. eapply process_inv; eauto.
      + eapply IH; eauto.
  Qed.

Lemma processPlans_inv a offset a' reps :
    Inv a -> processPlans order callback onPlanReplacement a offset = Ok (a', reps) -> Inv a'.
  Proof. unfold processPlans. intros HI H. eapply processIds_inv; eauto. Qed.
End Preserve.

Lemma treeShakePlans_setPlans a a' :
  treeShakePlans a = Ok a' -> exists t, a' = setPlans a t.
Proof.
  unfold treeShakePlans. destruct (markAll _ _ _) as [s|m]; simpl; intros H;
    inversion H; eauto.
Qed.

(** ** Claims *)

(** C7: [_addPlan] succeeds exactly in the phases plan, validate,
    deduplicate and optimize, storing the plan under the fresh id
    [planCount + 1]; in init, finalize and ready it throws before touching
    the table (the caller's state is left as it was). *)
Theorem addPlan_phase_gate (a : Aether) (p : ExecutablePlan) :
  ((exists newId a', _addPlan a p = Ok (newId, a')) <->
     (phase a = plan \/ phase a = validate \/ phase a = deduplicate \/ phase a = optimize))
  /\ ((phase a = init \/ phase a = finalize \/ phase a = ready) ->
      exists m, _addPlan a p = Throw m)
  /\ (forall newId a', _addPlan a p = Ok (newId, a') ->
      newId = S (planCount a) /\ plans a' = setSlot (plans a) newId (Some p)).
Proof.
  unfold _addPlan.
  destruct (phase a) eqn:Eph; simpl;
    (split; [split; [intros [? [? H]]; try discriminate; tauto
                    |intros H; try (exfalso; intuition discriminate); eauto]
            |split; [intros H; try (exfalso; intuition discriminate); eauto
                    |intros newId a' H; inversion H; subst; split; reflexivity]]).
Qed.

Lemma addPlan_phase_gate_witness :
  (exists newId a', _addPlan optAether optA = Ok (newId, a')) /\
  (exists m, _addPlan (setPlanCount (mkAether ready 3 [] [] None [] [] [] []) 3) optA = Throw m) /\
  (4 = S (planCount optAether) /\
   plans (setPlans (setPlanCount optAether 4) (setSlot (plans optAether) 4 (Some optA)))
   = setSlot (plans optAether) 4 (Some optA)).
Proof.
  split; [apply (proj1 (addPlan_phase_gate optAether optA)); vm_compute; tauto|].
  split; [apply (proj1 (proj2 (addPlan_phase_gate
                                 (setPlanCount (mkAether ready 3 [] [] None [] [] [] []) 3) optA)));
          vm_compute; tauto|].
  apply (proj2 (proj2 (addPlan_phase_gate optAether optA))). vm_compute. reflexivity.
Defined.

(** C3: a deduplication pass that reports zero replacements leaves the
    compiler state (in particular the plan table) as it was, so running the
    pass again reports zero replacements and changes nothing. *)
Theorem deduplicate_pass_idempotent dm (a a' : Aether) (offset : nat) :
  deduplicatePass dm a offset = Ok (a', 0) ->
  a' = a /\ plans a' = plans a /\ deduplicatePass dm a' offset = Ok (a', 0).
Proof.
  unfold deduplicatePass. intros H.
  assert (a' = a) as Heq.
  { eapply processPlans_no_replacement; [|exact H].
    intros; eapply deduplicateCallback_pure; eauto. }
  subst a'. split; [reflexivity|]. split; [reflexivity|]. exact H.
Qed.

(** A table whose only plan has no peer: the pass makes no replacement. *)
Lemma deduplicate_pass_idempotent_witness :
  deduplicatePass firstPeer trackedAether 0 = Ok (trackedAether, 0) /\
  trackedAether = trackedAether /\ plans trackedAether = plans trackedAether /\
  deduplicatePass firstPeer trackedAether 0 = Ok (trackedAether, 0).
Proof.
  split; [vm_compute; reflexivity|].
  apply (deduplicate_pass_idempotent firstPeer trackedAether trackedAether 0).
  vm_compute; reflexivity.
Defined.

Lemma illegalReferenceErrors_nil p :
  illegalReferenceErrors p = [] <->
  constructor_ p = TrackedObjectPlan \/ forall key q, ~ In (key, PVPlan q) (planProps p).
Proof.
  unfold illegalReferenceErrors.
  destruct (PlanClass_eq_dec (constructor_ p) TrackedObjectPlan) as [Ht|Ht].
  - split; auto.
  - split.
    + intros H. right. intros key q Hin.
      assert (In (key, PVPlan q)
                (filter (fun kv => match snd kv with PVPlan _ => true | PVOther => false end)
                        (planProps p))) as Hf by (apply filter_In; auto).
      destruct (filter _ _); [contradiction|discriminate].
    + intros [H|H]; [contradiction|].
      destruct (filter _ _) as [|[k v] l] eqn:E; [reflexivity|].
      exfalso. assert (In (k, v) (filter (fun kv => match snd kv with
                                                 | PVPlan _ => true | PVOther => false end)
                                       (planProps p))) as Hin by (rewrite E; left; auto).
      apply filter_In in Hin as [Hin Hv]. simpl in Hv.
      destruct v as [q|]; [apply (H k q Hin)|discriminate].
Qed.

Lemma flat_map_nil_iff {A B} (f : A -> list B) (l : list A) :
  flat_map f l = [] <-> forall x, In x l -> f x = [].
Proof.
  induction l as [|x l IH]; simpl.
  - split; [intros _ y []|reflexivity].
  - split.
    + intros H. apply app_eq_nil in H as [H1 H2].
      intros y [Hy|Hy]; [subst; exact H1|apply IH; assumption].
    + intros H. rewrite (H x (or_introl eq_refl)). simpl. apply IH. auto.
Qed.

(** C9 (amended): the reference check of [validatePlans(offset)] scans the
    slots from position [offset] on; it throws when one of those plans,
    other than a [__TrackedObjectPlan], has an enumerable property holding
    an [ExecutablePlan]; otherwise validation goes on to the group id
    assignment. *)
Theorem validatePlans_reference_check assignGroupIds (a : Aether) (offset : nat) :
  ((exists i p key q, In i (getPlanIds a offset) /\ lookupPlan (plans a) i = Some p /\
      constructor_ p <> TrackedObjectPlan /\ In (key, PVPlan q) (planProps p)) ->
   exists m, validatePlans assignGroupIds a offset = Throw m)
  /\ ((forall i p, In i (getPlanIds a offset) -> lookupPlan (plans a) i = Some p ->
        constructor_ p = TrackedObjectPlan \/ forall key q, ~ In (key, PVPlan q) (planProps p)) ->
      validatePlans assignGroupIds a offset = assignGroupIds a offset).
Proof.
  unfold validatePlans. split.
  - intros [i [p [key [q [Hi [Hp [Ht Hin]]]]]]].
    destruct (flat_map _ _) as [|e es] eqn:E; [|eauto].
    exfalso. rewrite flat_map_nil_iff in E. specialize (E i Hi). simpl in E.
    rewrite Hp in E. apply illegalReferenceErrors_nil in E as [E|E]; [contradiction|].
    exact (E key q Hin).
  - intros H.
    replace (flat_map _ _) with (@nil string); [reflexivity|].
    symmetry. apply flat_map_nil_iff. intros i Hi.
    destruct (lookupPlan (plans a) i) as [p|] eqn:Ep; [|reflexivity].
    apply illegalReferenceErrors_nil. eauto.
Qed.

Lemma validatePlans_reference_check_witness :
  (exists m, validatePlans (fun a _ => Ok a) badRefAether 0 = Throw m) /\
  validatePlans (fun a _ => Ok a) trackedAether 0 = Ok trackedAether.
Proof.
  split.
  - apply (proj1 (validatePlans_reference_check (fun a _ => Ok a) badRefAether 0)).
    exists 2, badRefPlan, "valuePlan", 1. vm_compute.
    split; [right; left; reflexivity|]. split; [reflexivity|].
    split; [discriminate|left; reflexivity].
  - apply (proj2 (validatePlans_reference_check (fun a _ => Ok a) trackedAether 0)).
    intros i p Hi Hp. vm_compute in Hi.
    destruct Hi as [<-|[<-|[]]]; vm_compute in Hp; inversion Hp; subst;
      [right|left; reflexivity].
    intros key q [].
Defined.

(** C9 counterexample: a [__TrackedObjectPlan] that holds its value plan
    in a property passes validation. *)
Lemma validatePlans_tracked_reference_passes :
  lookupPlan (plans trackedAether) 2 = Some trackedPlan /\
  In ("valuePlan", PVPlan 1) (planProps trackedPlan) /\
  validatePlans (fun a _ => Ok a) trackedAether 0 = Ok trackedAether.
Proof. split; [reflexivity|]. split; [left; reflexivity|]. vm_compute. reflexivity. Qed.

(** C10 failing input: the streamed plan 1 is offered as a peer of plan 2,
    whose [deduplicate] picks it, so slot 2 now holds the streamed plan. *)
Lemma dedup_streamed_plan_merged :
  planOptionsOf (planOptionsByPlan dedupAether) streamedP = Some (mkPlanOptions (Some 0)) /\
  lookupPlan (plans dedupAether) 2 = Some plainQ /\
  exists a', deduplicatePlans firstPeer dedupAether 0 = Ok a' /\
             lookupPlan (plans a') 2 = Some streamedP /\
             lookupPlan (plans a') 1 = Some streamedP.
Proof.
  split; [reflexivity|]. split; [reflexivity|].
  eexists. split; [vm_compute; reflexivity|]. split; reflexivity.
Qed.

(** The part of C10 the code does: a streamed plan is returned unchanged,
    whatever the table and whatever its [deduplicate] method. *)
Lemma deduplicatePlan_streamed_returns_self dm1 dm2 (a : Aether) (p : ExecutablePlan) o n :
  planOptionsOf (planOptionsByPlan a) p = Some o -> stream o = Some n ->
  deduplicatePlan dm1 a p = Ok p /\ deduplicatePlan dm2 a p = Ok p.
Proof.
  intros Ho Hs. unfold deduplicatePlan. rewrite Ho, Hs.
  destruct (hasSideEffects p); split; reflexivity.
Qed.

(** C8 counterexample: plan 1's [optimize] is never called: optimizing
    plan 3 (its only dependent) replaces it by plan 2, tree shaking nulls
    plan 1, and [process(plan 1)] then aborts. *)
Lemma optimize_skips_shaken_plan :
  lookupPlan (plans optAether) 1 = Some optB /\ optimizedPlans optAether = [] /\
  exists a', optimizePlans optMethod optAether = Ok a' /\
             ~ In optB (optimizedPlans a') /\ lookupPlan (plans a') 1 = None.
Proof.
  split; [reflexivity|]. split; [reflexivity|].
  eexists. split; [vm_compute; reflexivity|]. split; [|reflexivity].
  simpl. intros [H|[H|[]]]; discriminate.
Qed.

(** C8 (amended): [optimizePlan] on an already optimized plan throws and
    its result does not depend on the plan's [optimize] method (it is not
    called); over the optimize pass each plan's [optimize] is called at
    most once ([optimizedPlans] records each call and stays free of
    duplicates); plans shaken away before their turn are not optimized. *)
Theorem optimize_at_most_once om (a a' : Aether) :
  (forall p om', In p (optimizedPlans a) ->
     optimizePlan om a p = Throw "Must not optimize plan twice" /\
     optimizePlan om' a p = Throw "Must not optimize plan twice") /\
  (NoDup (optimizedPlans a) -> optimizePlans om a = Ok a' ->
   NoDup (optimizedPlans a') /\ exists l, optimizedPlans a' = optimizedPlans a ++ l).
Proof.
  split.
  - intros p om' Hin. unfold optimizePlan.
    apply memPlan_In in Hin. rewrite Hin. split; reflexivity.
  - intros Hnd H. unfold optimizePlans in H.
    destruct (processPlans _ _ _ _ _) as [[a1 reps]|m] eqn:E; simpl in H; [|discriminate].
    inversion H; subst a1. clear H.
    set (base := optimizedPlans a) in *.
    eapply (processPlans_inv DependentsFirst (optimizePlan om) (Some treeShakePlans)
              (fun x => NoDup (optimizedPlans x) /\ exists l, optimizedPlans x = base ++ l));
      [| | | |exact E].
    + intros x p x' r [Hx [l Hl]] Hopt. unfold optimizePlan in Hopt.
      destruct (memPlan p (optimizedPlans x)) eqn:Em; [discriminate|].
      inversion Hopt; subst. simpl. split.
      * apply memPlan_false in Em. apply NoDup_app; auto.
        -- constructor; [intros []|constructor].
        -- intros y Hy [<-|[]]. contradiction.
      * exists (l ++ [p]). rewrite Hl, app_assoc. reflexivity.
    + intros g x x' Hg HI Hx. inversion Hg; subst.
      apply treeShakePlans_setPlans in Hx as [t ->]. exact HI.
    + intros x t HI. exact HI.
    + split; [exact Hnd|]. exists []. rewrite app_nil_r. reflexivity.
Qed.

Lemma optimize_at_most_once_witness :
  NoDup (optimizedPlans optAether) /\
  exists a', optimizePlans optMethod optAether = Ok a' /\
    NoDup (optimizedPlans a') /\ exists l, optimizedPlans a' = optimizedPlans optAether ++ l.
Proof.
  split; [constructor|].
  eexists. split; [vm_compute; reflexivity|].
  apply (proj2 (optimize_at_most_once optMethod optAether _)); [constructor|].
  vm_compute; reflexivity.
Defined.

(** ** Tree shaking *)

Section Mark.
Variable t : PlanTable.

  (** Every plan added is in the set, and all its dependencies are in the
      set too. *)
Definition closedOver (acc acc' : list ExecutablePlan) : Prop :=
    forall x, In x acc' -> ~ In x acc ->
      forall d, In d (dependencies x) -> exists y, lookupPlan t d = Some y /\ In y acc'.

Lemma markPlanActive_complete fuel :
    forall o acc acc', markPlanActive fuel t o acc = Ok acc' ->
      (exists p, o = Some p /\ In p acc') /\ incl acc acc' /\ closedOver acc acc'.
  Proof.
    induction fuel as [|f IH]; intros o acc acc' H; simpl in H; [discriminate|].
    destruct o as [p|]; [|discriminate].
    destruct (memPlan p acc) eqn:Em.
    - inversion H; subst. apply memPlan_In in Em.
      split; [eauto|]. split; [intros x; auto|]. intros x Hx Hn. contradiction.
    - (* the fold over the dependencies *)
      assert (forall ds acc1 acc2,
                 foldM (fun acc d => markPlanActive f t (lookupPlan t d) acc) ds acc1 = Ok acc2 ->
                 incl acc1 acc2 /\ closedOver acc1 acc2 /\
                 forall d, In d ds -> exists y, lookupPlan t d = Some y /\ In y acc2) as Hfold.
      { intros ds. induction ds as [|d ds IHds]; intros acc1 acc2 Hf; simpl in Hf.
        - inversion Hf; subst. split; [intros x; auto|].
          split; [intros x Hx Hn; contradiction|]. intros d [].
        - destruct (markPlanActive f t (lookupPlan t d) acc1) as [acc3|m] eqn:E3;
            simpl in Hf; [|discriminate].
          destruct (IH _ _ _ E3) as [[y [Hy Hyin]] [Hinc3 Hcl3]].
          destruct (IHds _ _ Hf) as [Hinc2 [Hcl2 Hds]].
          split; [intros x Hx; apply Hinc2, Hinc3, Hx|].
          split.
          + intros x Hx Hn d' Hd'.
            destruct (in_dec ExecutablePlan_eq_dec x acc3) as [Hx3|Hx3].
            * destruct (Hcl3 x Hx3 Hn d' Hd') as [z [Hz Hzin]]. eauto.
            * apply (Hcl2 x Hx Hx3 d' Hd').
          + intros d' [<-|Hd']; [exists y; split; [exact Hy|apply Hinc2, Hyin]|].
            apply Hds, Hd'. }
      destruct (Hfold _ _ _ H) as [Hinc [Hcl Hds]].
      assert (In p acc') as Hp by (apply Hinc, in_or_app; right; left; reflexivity).
      split; [eauto|]. split.
      + intros x Hx. apply Hinc, in_or_app. left. exact Hx.
      + intros x Hx Hn d Hd.
        destruct (ExecutablePlan_eq_dec x p) as [->|Hne].
        * apply Hds, Hd.
        * apply (Hcl x Hx); [|exact Hd].
          intros Hin. apply in_app_or in Hin as [Hin|[Heq|[]]]; [contradiction|].
          apply Hne. symmetry. exact Heq.
  Qed.

  (** Whatever is added is reachable, for any notion of reachability closed
      under following a dependency. *)
Variable R : ExecutablePlan -> Prop.
Hypothesis R_dep : forall q d y, R q -> In d (dependencies q) -> lookupPlan t d = Some y -> R y.

Lemma markPlanActive_sound fuel :
    forall o acc acc', markPlanActive fuel t o acc = Ok acc' ->
      (forall p, o = Some p -> R p) -> (forall x, In x acc -> R x) ->
      forall x, In x acc' -> R x.
  Proof.
    induction fuel as [|f IH]; intros o acc acc' H Ho Hacc; simpl in H; [discriminate|].
    destruct o as [p|]; [|discriminate].
    destruct (memPlan p acc).
    - inversion H; subst. exact Hacc.
    - assert (Rp : R p) by (apply Ho; reflexivity).
      assert (forall ds acc1 acc2,
                 (forall d, In d ds -> In d (dependencies p)) ->
                 foldM (fun acc d => markPlanActive f t (lookupPlan t d) acc) ds acc1 = Ok acc2 ->
                 (forall x, In x acc1 -> R x) -> forall x, In x acc2 -> R x) as Hfold.
      { intros ds. induction ds as [|d ds IHds]; intros acc1 acc2 Hsub Hf H1; simpl in Hf.
        - inversion Hf; subst. exact H1.
        - destruct (markPlanActive f t (lookupPlan t d) acc1) as [acc3|m] eqn:E3;
            simpl in Hf; [|discriminate].
          eapply IHds; [intros d' Hd'; apply Hsub; right; exact Hd'|exact Hf|].
          eapply IH; [exact E3| |exact H1].
          intros y Hy. eapply R_dep; [exact Rp|apply Hsub; left; reflexivity|exact Hy]. }
      eapply Hfold; [intros d Hd; exact Hd|exact H|].
      intros x Hx. apply in_app_or in Hx as [Hx|[<-|[]]]; [apply Hacc, Hx|exact Rp].
  Qed.
End Mark.

Lemma markAll_complete t :
  forall ids acc acc', markAll t ids acc = Ok acc' ->
    incl acc acc' /\ closedOver t acc acc' /\
    forall i, In i ids -> exists y, lookupPlan t i = Some y /\ In y acc'.
Proof.
  unfold markAll. intros ids. induction ids as [|i ids IH]; intros acc acc' H; cbn [foldM] in H.
  - inversion H; subst. split; [intros x; auto|]. split; [intros x Hx Hn; contradiction|].
    intros i [].
  - destruct (markPlanActive (S (List.length t)) t (lookupPlan t i) acc) as [acc3|m] eqn:E3;
      cbn [bind] in H; [|discriminate].
    destruct (markPlanActive_complete t _ _ _ _ E3) as [[y [Hy Hyin]] [Hinc3 Hcl3]].
    destruct (IH _ _ H) as [Hinc2 [Hcl2 Hids]].
    split; [intros x Hx; apply Hinc2, Hinc3, Hx|].
    split.
    + intros x Hx Hn d Hd.
      destruct (in_dec ExecutablePlan_eq_dec x acc3) as [Hx3|Hx3].
      * destruct (Hcl3 x Hx3 Hn d Hd) as [z [Hz Hzin]]. eauto.
      * apply (Hcl2 x Hx Hx3 d Hd).
    + intros i' [<-|Hi']; [exists y; split; [exact Hy|apply Hinc2, Hyin]|].
      apply Hids, Hi'.
Qed.

Lemma markAll_sound a :
  forall ids acc acc', markAll (plans a) ids acc = Ok acc' ->
    (forall i, In i ids -> In i (seedPlanIds a)) ->
    (forall x, In x acc -> Reachable a x) -> forall x, In x acc' -> Reachable a x.
Proof.
  unfold markAll. intros ids. induction ids as [|i ids IH]; intros acc acc' H Hsub Hacc;
    cbn [foldM] in H.
  - inversion H; subst. exact Hacc.
  - destruct (markPlanActive (S (List.length (plans a))) (plans a) (lookupPlan (plans a) i) acc)
      as [acc3|m] eqn:E3; cbn [bind] in H; [|discriminate].
    eapply IH; [exact H|intros i' Hi'; apply Hsub; right; exact Hi'|].
    eapply (markPlanActive_sound (plans a) (Reachable a)); [| exact E3 | | exact Hacc].
    + intros q d y Hq Hd Hy. eapply reach_dep; eauto.
    + intros p Hp. eapply reach_seed; [apply Hsub; left; reflexivity|exact Hp].
Qed.

Lemma treeShake_active_iff a activePlans :
  markAll (plans a) (seedPlanIds a) [] = Ok activePlans ->
  forall p, In p activePlans <-> Reachable a p.
Proof.
  intros H p. split.
  - intros Hp. eapply markAll_sound; eauto. intros x [].
  - destruct (markAll_complete _ _ _ _ H) as [_ [Hcl Hseeds]].
    intros Hr. induction Hr as [i p Hi Hp|q d p Hq IHq Hd Hp].
    + destruct (Hseeds i Hi) as [y [Hy Hyin]]. congruence.
    + destruct (Hcl q IHq (fun h => h) d Hd) as [y [Hy Hyin]]. congruence.
Qed.

(** C2: after [treeShakePlans] every slot keeps its key, and it still holds
    its plan exactly when that plan is reachable, through dependency ids,
    from the subscription item plan, the item plans of all field paths,
    the side effect plans and the list-transform dependency plans; every
    other slot is nulled. *)
Theorem treeShakePlans_keeps_reachable (a a' : Aether) :
  treeShakePlans a = Ok a' ->
  Forall2 (fun kv kv' => fst kv' = fst kv /\
             forall p, snd kv' = Some p <-> snd kv = Some p /\ Reachable a p)
          (plans a) (plans a').
Proof.
  unfold treeShakePlans. destruct (markAll _ _ _) as [act|m] eqn:E; simpl; intros H;
    [|discriminate].
  inversion H; subst. simpl. unfold sweep.
  pose proof (treeShake_active_iff _ _ E) as Hiff. clear E H.
  generalize (plans a) as t0. intros t0.
  induction t0 as [|[k o] t IH]; simpl; [constructor|]. constructor; [|exact IH].
  simpl. split; [destruct o as [p|]; [destruct (memPlan p act)|]; reflexivity|].
  intros p. destruct o as [q|]; simpl.
  - destruct (memPlan q act) eqn:Em; simpl.
    + apply memPlan_In in Em. split.
      * intros Hq. inversion Hq; subst. split; [reflexivity|apply Hiff, Em].
      * intros [Hq _]. exact Hq.
    + apply memPlan_false in Em. split; [discriminate|].
      intros [Hq Hr]. inversion Hq; subst. exfalso. apply Em, Hiff, Hr.
  - split; [discriminate|intros [Hq _]; discriminate].
Qed.

Lemma treeShakePlans_keeps_reachable_witness :
  exists a', treeShakePlans optAether = Ok a' /\
  Forall2 (fun kv kv' => fst kv' = fst kv /\
             forall p, snd kv' = Some p <-> snd kv = Some p /\ Reachable optAether p)
          (plans optAether) (plans a').
Proof.
  eexists. split; [vm_compute; reflexivity|].
  apply treeShakePlans_keeps_reachable. vm_compute. reflexivity.
Defined.

End CompilerFacts.

Module CommonAncestorFacts.
Import CommonAncestor.
Local Set Warnings "-register-all".

Lemma TreeNode_eqb_eq : forall x y, TreeNode_eqb x y = true <-> x = y.
Proof.
  fix IH 1.
  intros [i1 p1 f1 par1] [i2 p2 f2 par2]. cbn [TreeNode_eqb].
  rewrite !andb_true_iff, Nat.eqb_eq, !String.eqb_eq.
  destruct par1 as [q1|], par2 as [q2|].
  - rewrite IH. split.
    + intros [[[-> ->] ->] ->]; reflexivity.
    + intros E; injection E; intros; subst; tauto.
  - split; [intros [_ H]; discriminate | intros E; discriminate].
  - split; [intros [_ H]; discriminate | intros E; discriminate].
  - split.
    + intros [[[-> ->] ->] _]; reflexivity.
    + intros E; injection E; intros; subst; tauto.
Qed.

Lemma climb_app (s : string) : forall n l1 l2, climb s n (l1 ++ l2) = climb s n l1 ++ l2.
Proof.
  fix IH 1. intros [i p f [q|]] l1 l2; cbn [climb].
  - destruct (startsWith (pathIdentity q) s); [|reflexivity].
    rewrite app_comm_cons. apply IH.
  - reflexivity.
Qed.

(** The untruncated path from the topmost ancestor under [s] down to [m]. *)
Definition upFrom (s : string) (m : TreeNode) : list TreeNode := climb s m [m].

Lemma upFrom_eq s m :
  upFrom s m = match parent m with
               | Some p => if startsWith (pathIdentity p) s then upFrom s p ++ [m] else [m]
               | None => [m]
               end.
Proof.
  unfold upFrom. destruct m as [i pi f [q|]]; cbn [climb parent]; [|reflexivity].
  destruct (startsWith (pathIdentity q) s); [|reflexivity].
  apply (climb_app s q [q] [mkTreeNode i pi f (Some q)]).
Qed.

Definition Chain (l : list TreeNode) : Prop :=
  forall i x y, nth_error l i = Some x -> nth_error l (S i) = Some y -> parent y = Some x.
Definition Top (s : string) (l : list TreeNode) : Prop :=
  forall x, nth_error l 0 = Some x ->
  match parent x with Some p => startsWith (pathIdentity p) s = false | None => True end.
Definition AllStart (s : string) (l : list TreeNode) : Prop :=
  forall x, In x l -> startsWith (pathIdentity x) s = true.
Definition WellFormedPath (s : string) (l : list TreeNode) : Prop :=
  l <> [] /\ Chain l /\ Top s l /\ AllStart s l.

Lemma Chain_snoc l p n : Chain (l ++ [p]) -> parent n = Some p -> Chain ((l ++ [p]) ++ [n]).
Proof.
  intros HC Hn i x y Hx Hy.
  rewrite nth_error_app in Hx, Hy.
  destruct (Nat.ltb_spec (S i) (List.length (l ++ [p]))) as [Hlt|Hge].
  - destruct (Nat.ltb_spec i (List.length (l ++ [p]))); [|lia].
    exact (HC i x y Hx Hy).
  - destruct (S i - List.length (l ++ [p])) as [|k] eqn:E.
    2: { destruct k; discriminate. }
    injection Hy as <-.
    assert (Hi : S i = List.length (l ++ [p])) by lia. clear E Hge.
    rewrite length_app in Hi, Hx. cbn [List.length] in Hi, Hx.
    destruct (Nat.ltb_spec i (List.length l + 1)); [|lia].
    assert (i = List.length l) as -> by lia.
    rewrite nth_error_app2, Nat.sub_diag in Hx by lia.
    injection Hx as <-. exact Hn.
Qed.

Lemma single_wf s m : startsWith (pathIdentity m) s = true ->
  match parent m with Some p => startsWith (pathIdentity p) s = false | None => True end ->
  WellFormedPath s [m].
Proof.
  intros Hm Htop. split; [discriminate|]. split; [|split].
  - intros [|i] x y _ Hy; simpl in Hy; [discriminate|destruct i; discriminate].
  - intros x Hx. injection Hx as <-. exact Htop.
  - intros x [<-|[]]; exact Hm.
Qed.

Lemma upFrom_wf (s : string) : forall m, startsWith (pathIdentity m) s = true ->
  WellFormedPath s (upFrom s m) /\ exists l, upFrom s m = l ++ [m].
Proof.
  fix IH 1. intros m Hm.
  rewrite upFrom_eq. destruct m as [i pi f [q|]]; cbn [parent].
  - destruct (startsWith (pathIdentity q) s) eqn:Hq.
    + destruct (IH q Hq) as [(Hne & HC & HT & HA) [l Hl]].
      split; [|exists (upFrom s q); reflexivity].
      split; [destruct (upFrom s q); discriminate|]. split; [|split].
      * rewrite Hl. apply Chain_snoc; [rewrite <- Hl; exact HC|reflexivity].
      * intros x Hx. apply HT. rewrite nth_error_app1 in Hx; [exact Hx|].
        destruct (upFrom s q); [congruence|simpl; lia].
      * intros x Hx. apply in_app_or in Hx as [Hx|[<-|[]]]; [exact (HA x Hx)|exact Hm].
    + split; [apply single_wf; assumption|exists []; reflexivity].
  - split; [apply single_wf; [assumption|exact I]|exists []; reflexivity].
Qed.

Lemma truncateAtListChange_firstn : forall rest previous,
  exists k, truncateAtListChange previous rest = firstn k rest.
Proof.
  induction rest as [|v rest IH]; intros previous; cbn [truncateAtListChange].
  - exists 0; reflexivity.
  - destruct (_ && _).
    + exists 0; reflexivity.
    + destruct (IH v) as [k Hk]. exists (S k). rewrite Hk. reflexivity.
Qed.

Lemma truncatePath_firstn l : exists k, truncatePath l = firstn (S k) l.
Proof.
  destruct l as [|first rest].
  - exists 0; reflexivity.
  - destruct (truncateAtListChange_firstn rest first) as [k Hk].
    exists k. cbn [truncatePath]. rewrite Hk. reflexivity.
Qed.

Lemma nth_error_firstn_Some {A} (l : list A) k i x :
  nth_error (firstn k l) i = Some x -> nth_error l i = Some x.
Proof.
  rewrite nth_error_firstn. destruct (Nat.ltb i k); [exact (fun H => H)|discriminate].
Qed.

Lemma firstn_wf s l k : WellFormedPath s l -> WellFormedPath s (firstn (S k) l).
Proof.
  intros (Hne & HC & HT & HA). split; [|split; [|split]].
  - destruct l; [contradiction|discriminate].
  - intros i x y Hx Hy.
    exact (HC i x y (nth_error_firstn_Some _ _ _ _ Hx) (nth_error_firstn_Some _ _ _ _ Hy)).
  - intros x Hx. apply HT. exact (nth_error_firstn_Some _ _ _ _ Hx).
  - intros x Hx. apply In_nth_error in Hx as [i Hi].
    apply HA, (nth_error_In l i), (nth_error_firstn_Some _ _ _ _ Hi).
Qed.

Lemma truncatedPath_wf s n :
  startsWith (pathIdentity n) s = true -> WellFormedPath s (truncatedPath s n).
Proof.
  intros Hn. unfold truncatedPath.
  destruct (truncatePath_firstn (climb s n [n])) as [k ->].
  apply firstn_wf, (upFrom_wf s n Hn).
Qed.

Lemma firstn_S_nth {A} (l : list A) k x :
  nth_error l k = Some x -> firstn (S k) l = firstn k l ++ [x].
Proof.
  revert l. induction k as [|k IHk].
  - intros [|y l] H; cbn in H; [discriminate|]. injection H as ->. reflexivity.
  - intros [|y l] H; cbn in H; [discriminate|].
    change (y :: firstn (S k) l = y :: (firstn k l ++ [x])).
    rewrite (IHk l H). reflexivity.
Qed.

(** In a well-formed path, the prefix ending at a node [m] is determined by
    [m] alone: it is the walk up from [m]. *)
Lemma wf_prefix_upFrom s l : WellFormedPath s l ->
  forall k m, nth_error l k = Some m -> firstn (S k) l = upFrom s m.
Proof.
  intros (_ & HC & HT & HA). induction k as [|k IH]; intros m Hm.
  - destruct l as [|x l]; [discriminate|]. cbn in Hm. injection Hm as <-.
    rewrite upFrom_eq. specialize (HT x eq_refl). cbn [firstn].
    destruct (parent x) as [p|]; [rewrite HT|]; reflexivity.
  - destruct (nth_error l k) as [x|] eqn:Hx.
    2: { apply nth_error_None in Hx.
         assert (nth_error l (S k) <> None) as H by congruence.
         apply nth_error_Some in H. lia. }
    rewrite (firstn_S_nth l (S k) m Hm), (IH x eq_refl), (upFrom_eq s m), (HC k x m Hx Hm).
    rewrite (HA x (nth_error_In _ _ Hx)). reflexivity.
Qed.

Lemma wf_index_unique s l k m : WellFormedPath s l -> nth_error l k = Some m ->
  S k = List.length (upFrom s m).
Proof.
  intros Hwf Hm. rewrite <- (wf_prefix_upFrom s l Hwf k m Hm), length_firstn.
  assert (k < List.length l) by (apply nth_error_Some; congruence). lia.
Qed.

Lemma chain_ancestor l k m : Chain l -> nth_error l k = Some m ->
  forall j c, nth_error l (k + j) = Some c -> AncestorOrSelf m c /\ depth c = j + depth m.
Proof.
  intros HC Hm. induction j as [|j IH]; intros c Hc.
  - rewrite Nat.add_0_r in Hc. rewrite Hm in Hc. injection Hc as <-.
    split; [constructor|reflexivity].
  - destruct (nth_error l (k + j)) as [x|] eqn:Hx.
    2: { apply nth_error_None in Hx.
         assert (nth_error l (k + S j) <> None) as H by congruence.
         apply nth_error_Some in H. lia. }
    rewrite Nat.add_succ_r in Hc.
    pose proof (HC (k + j) x c Hx Hc) as Hp.
    destruct (IH x eq_refl) as [Ha Hd]. split.
    + exact (ancestor_parent m c x Hp Ha).
    + destruct c as [i pi f [q|]]; cbn [parent] in Hp; [|discriminate].
      injection Hp as ->. cbn [depth]. rewrite Hd. reflexivity.
Qed.

Lemma forallb_nth_match (others : list (list TreeNode)) i matcher :
  forallb (fun pathJ => match nth_error pathJ i with
                        | Some n => TreeNode_eqb n matcher
                        | None => false
                        end) others = true <->
  forall pj, In pj others -> nth_error pj i = Some matcher.
Proof.
  rewrite forallb_forall. split; intros H pj Hpj; specialize (H pj Hpj);
    destruct (nth_error pj i) as [n|]; try discriminate.
  - apply TreeNode_eqb_eq in H. congruence.
  - injection H as ->. apply TreeNode_eqb_eq. reflexivity.
Qed.

Lemma matchLoop_cases others : forall rest i dc,
  matchLoop i rest others dc = dc \/
  exists d, matchLoop i rest others dc = Some d /\ i <= d.
Proof.
  induction rest as [|matcher rest IH]; intros i dc; cbn [matchLoop].
  - left; reflexivity.
  - destruct (forallb _ others).
    + right. destruct (IH (S i) (Some i)) as [E|[d [E Hd]]]; rewrite E.
      * exists i; split; [reflexivity|lia].
      * exists d; split; [reflexivity|lia].
    + left; reflexivity.
Qed.

Lemma matchLoop_sound others : forall rest i dc d,
  matchLoop i rest others dc = Some d ->
  dc = Some d \/
  (i <= d /\ d < i + List.length rest /\
   forall idx, i <= idx <= d -> forall pj, In pj others ->
     nth_error pj idx = nth_error rest (idx - i)).
Proof.
  induction rest as [|matcher rest IH]; intros i dc d H; cbn [matchLoop] in H.
  - left; exact H.
  - destruct (forallb _ others) eqn:F; [|left; exact H].
    pose proof (proj1 (forallb_nth_match others i matcher) F) as F0. clear F. rename F0 into F.
    right. cbn [List.length].
    destruct (IH (S i) (Some i) d H) as [E|(H1 & H2 & H3)].
    + injection E as <-. split; [lia|split; [lia|]].
      intros idx Hidx pj Hpj. assert (idx = i) as -> by lia.
      rewrite Nat.sub_diag. exact (F pj Hpj).
    + split; [lia|split; [lia|]].
      intros idx Hidx pj Hpj. destruct (Nat.eq_dec idx i) as [->|Hne].
      * rewrite Nat.sub_diag. exact (F pj Hpj).
      * replace (idx - i) with (S (idx - S i)) by lia. cbn [nth_error].
        apply H3; [lia|exact Hpj].
Qed.

Lemma matchLoop_complete others : forall rest i dc K, i <= K ->
  (forall idx, i <= idx <= K -> idx < i + List.length rest /\
     forall pj, In pj others -> nth_error pj idx = nth_error rest (idx - i)) ->
  exists d, matchLoop i rest others dc = Some d /\ K <= d.
Proof.
  induction rest as [|matcher rest IH]; intros i dc K HiK H.
  - destruct (H i) as [Hl _]; [lia|]. cbn in Hl. lia.
  - cbn [matchLoop].
    rewrite (proj2 (forallb_nth_match others i matcher)).
    2: { intros pj Hpj. destruct (H i) as [_ Hi]; [lia|].
         rewrite (Hi pj Hpj), Nat.sub_diag. reflexivity. }
    destruct (Nat.eq_dec K i) as [->|Hne].
    + destruct (matchLoop_cases others rest (S i) (Some i)) as [E|[d [E Hd]]]; rewrite E.
      * exists i; split; [reflexivity|lia].
      * exists d; split; [reflexivity|lia].
    + apply IH; [lia|]. intros idx Hidx. destruct (H idx) as [Hl Ha]; [lia|].
      cbn [List.length] in Hl. split; [lia|].
      intros pj Hpj. rewrite (Ha pj Hpj). replace (idx - i) with (S (idx - S i)) by lia.
      reflexivity.
Qed.

Lemma allPaths_fold s : forall treeNodes acc,
  (forall n, In n treeNodes -> startsWith (pathIdentity n) s = true) ->
  foldM (fun acc n => p <- treeNodePath n s ;; Ok (acc ++ [p])) treeNodes acc =
  Ok (acc ++ map (truncatedPath s) treeNodes).
Proof.
  induction treeNodes as [|n treeNodes IH]; intros acc H; cbn [foldM map].
  - rewrite app_nil_r; reflexivity.
  - unfold treeNodePath at 1. rewrite (H n (or_introl eq_refl)). cbn [negb bind].
    rewrite IH by (intros m Hm; apply H; right; exact Hm).
    rewrite <- app_assoc. reflexivity.
Qed.

Section Common.
Variable start : string.
Variables (t0 : TreeNode) (ts : list TreeNode).
Hypothesis Hstart : forall n, In n (t0 :: ts) -> startsWith (pathIdentity n) start = true.

Let path0 := truncatedPath start t0.
Let others := map (truncatedPath start) ts.

Lemma common_agree m : CommonNode start (t0 :: ts) m ->
  exists K, nth_error path0 K = Some m /\
  forall n, In n (t0 :: ts) -> forall idx, idx <= K ->
    nth_error (truncatedPath start n) idx = nth_error path0 idx.
Proof.
  intros Hc. destruct (In_nth_error _ _ (Hc t0 (or_introl eq_refl))) as [K HK].
  exists K. split; [exact HK|]. intros n Hn idx Hidx.
  pose proof (truncatedPath_wf start t0 (Hstart t0 (or_introl eq_refl))) as W0.
  pose proof (truncatedPath_wf start n (Hstart n Hn)) as Wn.
  destruct (In_nth_error _ _ (Hc n Hn)) as [Kn HKn].
  pose proof (wf_index_unique _ _ _ _ W0 HK) as U0.
  pose proof (wf_index_unique _ _ _ _ Wn HKn) as Un.
  assert (Kn = K) as -> by lia.
  pose proof (wf_prefix_upFrom _ _ W0 K m HK) as P0.
  pose proof (wf_prefix_upFrom _ _ Wn K m HKn) as Pn.
  assert (Hlt : Nat.ltb idx (S K) = true) by (apply Nat.ltb_lt; lia).
  pose proof (nth_error_firstn (S K) (truncatedPath start n) idx) as E1.
  pose proof (nth_error_firstn (S K) path0 idx) as E2.
  rewrite Hlt in E1, E2. rewrite <- E1, <- E2, Pn, <- P0. reflexivity.
Qed.

Lemma common_matchLoop m : CommonNode start (t0 :: ts) m ->
  exists K d, nth_error path0 K = Some m /\
    matchLoop 0 path0 others None = Some d /\ K <= d.
Proof.
  intros Hc. destruct (common_agree m Hc) as [K [HK Hag]].
  destruct (matchLoop_complete others path0 0 None K) as [d [Hd HKd]].
  - lia.
  - intros idx Hidx. split.
    + assert (K < List.length path0) by (apply nth_error_Some; congruence). lia.
    + intros pj Hpj. apply in_map_iff in Hpj as [n [<- Hn]].
      rewrite Nat.sub_0_r. apply Hag; [right; exact Hn|lia].
  - exists K, d. auto.
Qed.

Lemma matchLoop_result d : matchLoop 0 path0 others None = Some d ->
  d < List.length path0 /\
  forall idx, idx <= d -> forall n, In n (t0 :: ts) ->
    nth_error (truncatedPath start n) idx = nth_error path0 idx.
Proof.
  intros H. destruct (matchLoop_sound others path0 0 None d H) as [E|(_ & Hl & Ha)];
    [discriminate|].
  split; [exact Hl|]. intros idx Hidx n [<-|Hn]; [reflexivity|].
  rewrite <- (Nat.sub_0_r idx) at 2. apply Ha; [lia|]. apply in_map; exact Hn.
Qed.

End Common.
(** C5: for a plan whose parent path identity is a prefix of the path
    identity of every tree node at which it is first used (and which is used
    at least once), the assigned common-ancestor path identity is that of a
    node common to all the truncated paths of the usage sites (each path
    starts at the topmost ancestor under the parent path identity and is cut
    at the first list boundary), and every node common to them is an
    ancestor-or-self of it, hence no deeper; the assignment throws the
    internal error exactly when no common node exists, and has no other
    outcome. *)
Theorem commonAncestor_deepest (parentPathIdentity : string) (treeNodes : list TreeNode) :
  treeNodes <> [] ->
  (forall n, In n treeNodes -> startsWith (pathIdentity n) parentPathIdentity = true) ->
  (forall cpi, assignCommonAncestorPathIdentity parentPathIdentity treeNodes = Ok cpi ->
     exists c, cpi = pathIdentity c /\ CommonNode parentPathIdentity treeNodes c /\
       forall m, CommonNode parentPathIdentity treeNodes m ->
         AncestorOrSelf m c /\ depth m <= depth c) /\
  (assignCommonAncestorPathIdentity parentPathIdentity treeNodes = Throw internalErrorNoCommonPath <->
     ~ exists m, CommonNode parentPathIdentity treeNodes m) /\
  ((exists cpi, assignCommonAncestorPathIdentity parentPathIdentity treeNodes = Ok cpi) \/
   assignCommonAncestorPathIdentity parentPathIdentity treeNodes = Throw internalErrorNoCommonPath).
Proof.
  intros Hne Hs. destruct treeNodes as [|t0 ts]; [contradiction|].
  unfold assignCommonAncestorPathIdentity, commonAncestorNode.
  rewrite (allPaths_fold _ _ [] Hs). cbn [app map bind].
  destruct (matchLoop 0 (truncatedPath parentPathIdentity t0)
              (map (truncatedPath parentPathIdentity) ts) None) as [d|] eqn:Hd.
  - destruct (matchLoop_result parentPathIdentity t0 ts d Hd) as [Hl Hag].
    destruct (nth_error (truncatedPath parentPathIdentity t0) d) as [c|] eqn:Hc.
    2: { apply nth_error_None in Hc. lia. }
    cbn [bind].
    assert (Hcommon : CommonNode parentPathIdentity (t0 :: ts) c).
    { intros n Hn. apply (nth_error_In _ d). rewrite (Hag d (le_n d) n Hn). exact Hc. }
    split; [|split].
    + intros cpi E. injection E as <-. exists c. split; [reflexivity|].
      split; [exact Hcommon|].
      intros m Hm.
      destruct (common_matchLoop parentPathIdentity t0 ts Hs m Hm) as (K & d' & HK & Hd' & HKd).
      rewrite Hd in Hd'. injection Hd' as <-.
      pose proof (truncatedPath_wf _ t0 (Hs t0 (or_introl eq_refl))) as (_ & HC & _).
      replace d with (K + (d - K)) in Hc by lia.
      destruct (chain_ancestor _ K m HC HK (d - K) c Hc) as [Ha Hdep].
      split; [exact Ha|lia].
    + split; [intros E; discriminate E|].
      intros Hno. exfalso. apply Hno. exists c. exact Hcommon.
    + left. eexists; reflexivity.
  - split; [|split].
    + intros cpi E; discriminate E.
    + split; [intros _ [m Hm]|intros _; reflexivity].
      destruct (common_matchLoop parentPathIdentity t0 ts Hs m Hm) as (K & d' & HK & Hd' & HKd).
      congruence.
    + right; reflexivity.
Qed.

Lemma commonAncestor_deepest_witness :
  assignCommonAncestorPathIdentity ">a[]" [exB; exC] = Ok ">a[]" /\
  exists c, ">a[]" = pathIdentity c /\ CommonNode ">a[]" [exB; exC] c /\
    forall m, CommonNode ">a[]" [exB; exC] m -> AncestorOrSelf m c /\ depth m <= depth c.
Proof.
  split; [vm_compute; reflexivity|].
  destruct (commonAncestor_deepest ">a[]" [exB; exC]) as [H1 _].
  - discriminate.
  - intros n [<-|[<-|[]]]; vm_compute; reflexivity.
  - apply H1. vm_compute. reflexivity.
Defined.

End CommonAncestorFacts.

Module ExecutorFacts.
Import Executor.

(** The fulfilled path stores the value in the bucket: a later batch whose
    parent shares the bucket reads it and [execute] runs once. *)
Lemma executePlan_reuses_stored_value :
  let '(st1, r1, _) := executePlan steadyExecute [] emptyState asyncPlan [PR 7] in
  let '(st2, r2, _) := executePlan steadyExecute [] st1 asyncPlan [PR 7] in
  r1 = Fulfilled [Data 1] /\ r2 = Direct [Data 1] /\ executeLog st2 = [5].
Proof. vm_compute. auto. Qed.

(** C1 (failing input): for the asynchronous plan [_5] and two batches run
    one after the other, each with one parent whose [PlanResults] has bucket
    [7], where [execute] throws [42] on its first call and returns
    [[Data 1]] afterwards: the rejection handler of [executePlanOld] writes
    [new CrystalError(error)] into the first batch's result but nothing into
    the bucket, so the second batch finds no value, runs [execute] a second
    time for the same (plan, bucket) pair, and observes [Data 1] where the
    first observed the [CrystalError]. *)
Theorem executePlan_reexecutes_after_rejection :
  let '(st1, r1, _) := executePlan flakyExecute [] emptyState asyncPlan [PR 7] in
  let '(st2, r2, _) := executePlan flakyExecute [] st1 asyncPlan [PR 7] in
  r1 = Fulfilled [CrystalErrorV 42] /\ r2 = Fulfilled [Data 1] /\
  bucketGet (store st1) 7 5 = None /\ executeLog st2 = [5; 5].
Proof. vm_compute. auto. Qed.

(** C6 (failing input): when [execute] of the asynchronous plan [_5]
    throws [42], with two parents of one batch sharing bucket [7] the second
    parent joins the first one's deferred, which is rejected, so
    [executePlan] rejects with the raw error [42] instead of returning
    wrapped values; with one parent the result holds the [CrystalError] but
    the bucket stays empty.  The synchronous sibling path of
    [executePlanAlt] wraps the same throw into a [CrystalError] stored in
    both the result and the bucket. *)
Theorem executePlan_rejection_not_wrapped :
  (let '(st, r, _) := executePlan rejectingExecute [] emptyState asyncPlan [PR 7; PR 7] in
   r = Rejected 42 /\ bucketGet (store st) 7 5 = None) /\
  (let '(st, r, _) := executePlan rejectingExecute [] emptyState asyncPlan [PR 7] in
   r = Fulfilled [CrystalErrorV 42] /\ bucketGet (store st) 7 5 = None) /\
  (let '(st, r, _) := executePlan rejectingExecute [] emptyState syncPlan [PR 7; PR 7] in
   r = Direct [CrystalErrorV 42; CrystalErrorV 42] /\
   bucketGet (store st) 7 5 = Some (CrystalErrorV 42)).
Proof. vm_compute. auto. Qed.

End ExecutorFacts.

Module SideEffectChainFacts.
Import SideEffectChain.

(** A run of complete executions, each starting no earlier than the
    previous one ended, from time [t] to time [T]. *)
Fixpoint SeqPairs (t : nat) (tr : list Event) (T : nat) : Prop :=
  match tr with
  | [] => t = T
  | Start p s :: End p' e :: rest => p = p' /\ t <= s /\ s <= e /\ SeqPairs e rest T
  | _ => False
  end.

Lemma SeqPairs_Sequential : forall tr t T, SeqPairs t tr T -> Sequential t tr.
Proof.
  fix IH 1.
  intros [|[p s0|p e0] [|[p' s1|p' e1] rest]] t T H; cbn in H |- *; try contradiction.
  - exact I.
  - destruct H as (-> & H1 & H2 & H3). split; [reflexivity|]. split; [exact H1|].
    split; [exact H2|]. exact (IH rest e1 T H3).
Qed.

Lemma SeqPairs_snoc : forall tr t T m s, SeqPairs t tr T -> T <= s ->
  Sequential t (tr ++ [Start m s]).
Proof.
  fix IH 1.
  intros [|[p s0|p e0] [|[p' s1|p' e1] rest]] t T m s H Hs; cbn in H |- *; try contradiction.
  - lia.
  - destruct H as (-> & H1 & H2 & H3). split; [reflexivity|]. split; [exact H1|].
    split; [exact H2|]. exact (IH rest e1 T m s H3 Hs).
Qed.

Lemma chain_rejected latency fulfils : forall ses p, fulfilledP p = false ->
  fold_left (fun chain sideEffectPlan => thenP chain (executePlanAt latency fulfils sideEffectPlan))
            ses p = p.
Proof.
  induction ses as [|se ses IH]; intros p Hp; cbn [fold_left]; [reflexivity|].
  unfold thenP at 2. rewrite Hp. apply IH; exact Hp.
Qed.

Lemma chain_fold latency fulfils : forall ses p, fulfilledP p = true ->
  let q := fold_left (fun chain sideEffectPlan =>
                        thenP chain (executePlanAt latency fulfils sideEffectPlan)) ses p in
  exists tr, events q = events p ++ tr /\ SeqPairs (settleTime p) tr (settleTime q) /\
    startedPlans tr = upToFirstRejection fulfils ses /\ fulfilledP q = forallb fulfils ses.
Proof.
  induction ses as [|se ses IH]; intros p Hp; cbn [fold_left].
  - exists []. rewrite app_nil_r. repeat split; assumption.
  - assert (Hp' : thenP p (executePlanAt latency fulfils se) =
                    mkTimed (settleTime p + latency se) (fulfils se)
                      (events p ++ [Start se (settleTime p); End se (settleTime p + latency se)])).
    { unfold thenP. rewrite Hp. reflexivity. }
    rewrite Hp'. destruct (fulfils se) eqn:Hse.
    + destruct (IH (mkTimed (settleTime p + latency se) true
                     (events p ++ [Start se (settleTime p); End se (settleTime p + latency se)]))
                   eq_refl) as (tr & E & Hseq & Hst & Hf).
      cbn [events settleTime] in E, Hseq.
      exists ([Start se (settleTime p); End se (settleTime p + latency se)] ++ tr).
      split; [rewrite E, <- app_assoc; reflexivity|].
      split; [cbn [app SeqPairs]; split; [reflexivity|split; [lia|split; [lia|exact Hseq]]]|].
      split; [cbn [app startedPlans flat_map upToFirstRejection]; rewrite Hse; cbn [app];
              f_equal; exact Hst|].
      rewrite Hf. cbn [forallb]. rewrite Hse. reflexivity.
    + rewrite (chain_rejected latency fulfils ses (mkTimed (settleTime p + latency se) false
                 (events p ++ [Start se (settleTime p); End se (settleTime p + latency se)]))
                 eq_refl).
      exists [Start se (settleTime p); End se (settleTime p + latency se)].
      split; [reflexivity|]. split; [cbn; repeat split; lia|].
      split; [cbn; rewrite Hse; reflexivity|]. cbn [forallb fulfilledP]. rewrite Hse. reflexivity.
Qed.

Lemma startedPlans_app tr1 tr2 : startedPlans (tr1 ++ tr2) = startedPlans tr1 ++ startedPlans tr2.
Proof. unfold startedPlans. apply flat_map_app. Qed.

(** C4: for any latencies and any outcomes of the side-effect plans, the
    batch's trace is sequential: each execution starts no earlier than the
    previous one ended, in particular every side-effect plan ends before
    the next one starts and all of them end before the field's main plan
    and item-plan layers start.  The plans started are the side-effect
    plans in declaration order up to the first whose execution rejects,
    followed by the main plan exactly when none rejects. *)
Theorem sideEffects_run_in_order (latency : nat -> nat) (fulfils : nat -> bool)
    (mainPlan t0 : nat) (sideEffectPlans : list nat) :
  let r := executeBatchForPlanResultses latency fulfils mainPlan t0 sideEffectPlans in
  Sequential t0 (events r) /\
  startedPlans (events r) =
    upToFirstRejection fulfils sideEffectPlans ++
    (if forallb fulfils sideEffectPlans then [mainPlan] else []).
Proof.
  destruct sideEffectPlans as [|se ses] eqn:Eses; cbn zeta.
  - cbn. split; [lia|reflexivity].
  - unfold executeBatchForPlanResultses. rewrite <- Eses.
    destruct (chain_fold latency fulfils sideEffectPlans (resolveAt t0) eq_refl)
      as (tr & E & Hseq & Hst & Hf).
    set (chain := fold_left _ sideEffectPlans (resolveAt t0)) in *.
    cbn [events resolveAt settleTime app] in E, Hseq.
    unfold thenP. rewrite Hf.
    destruct (forallb fulfils sideEffectPlans).
    + cbn [events executeBatchInnerAt settleTime fulfilledP]. rewrite E.
      split; [exact (SeqPairs_snoc tr t0 _ mainPlan _ Hseq (le_n _))|].
      rewrite startedPlans_app, Hst. reflexivity.
    + rewrite E. split; [exact (SeqPairs_Sequential tr t0 _ Hseq)|].
      rewrite Hst, app_nil_r. reflexivity.
Qed.

End SideEffectChainFacts.

(** * Further facts about the compiler *)

Module CompilerExtraFacts.
Import Compiler Lookup CompilerFacts.

(** ** Fresh plan ids *)

(** Every key of the plan table is at most [planCount]. *)
Definition KeysBelow (a : Aether) : Prop :=
  forall k, In k (map fst (plans a)) -> k <= planCount a.

Lemma setSlot_fresh t k v : ~ In k (map fst t) -> setSlot t k v = t ++ [(k, v)].
Proof.
  induction t as [|[k' o] t IH]; intros Hn; cbn [setSlot]; [reflexivity|].
  destruct (Nat.eqb_spec k k') as [->|Hne]; [exfalso; apply Hn; left; reflexivity|].
  rewrite IH; [reflexivity|]. intros H; apply Hn; right; exact H.
Qed.

Lemma lookupSlot_app_other t k v k' :
  k' <> k -> lookupSlot (t ++ [(k, v)]) k' = lookupSlot t k'.
Proof.
  intros Hne. induction t as [|[k1 o] t IH]; cbn [lookupSlot app].
  - destruct (Nat.eqb_spec k' k); [contradiction|reflexivity].
  - destruct (Nat.eqb k' k1); [reflexivity|exact IH].
Qed.

Lemma lookupPlan_app_fresh t k v : ~ In k (map fst t) -> lookupPlan (t ++ [(k, v)]) k = v.
Proof.
  induction t as [|[k1 o] t IH]; intros Hn; cbn [lookupPlan app].
  - rewrite Nat.eqb_refl. reflexivity.
  - destruct (Nat.eqb_spec k k1) as [->|_]; [exfalso; apply Hn; left; reflexivity|].
    apply IH. intros H; apply Hn; right; exact H.
Qed.

(** X1: while every key is at most [planCount] (true of the empty table
    and kept by every call), [_addPlan] stores the plan under a key not in
    the table yet: the new key is appended after all others, no existing
    slot changes, the new slot holds the plan, the key is exactly what
    [getPlanIds] returns from the old table size on (the [offset] with
    which the new plans are validated), and the invariant still holds. *)
Theorem addPlan_fresh_slot (a a' : Aether) (p : ExecutablePlan) (newId : nat) :
  KeysBelow a -> _addPlan a p = Ok (newId, a') ->
  ~ In newId (map fst (plans a)) /\
  map fst (plans a') = map fst (plans a) ++ [newId] /\
  (forall k, k <> newId -> lookupSlot (plans a') k = lookupSlot (plans a) k) /\
  lookupPlan (plans a') newId = Some p /\
  getPlanIds a' (List.length (plans a)) = [newId] /\
  KeysBelow a'.
Proof.
  intros Hk H. unfold _addPlan in H.
  destruct (planCreationAllowed (phase a)); cbn [negb] in H; [|discriminate].
  injection H as <- <-.
  assert (Hfresh : ~ In (S (planCount a)) (map fst (plans a)))
    by (intros Hin; apply Hk in Hin; lia).
  unfold KeysBelow, getPlanIds. cbn [plans setPlans setPlanCount planCount].
  rewrite setSlot_fresh by exact Hfresh.
  split; [exact Hfresh|].
  split; [rewrite map_app; reflexivity|].
  split; [intros k Hne; apply lookupSlot_app_other; exact Hne|].
  split; [apply lookupPlan_app_fresh; exact Hfresh|].
  split.
  - rewrite map_app, skipn_app, <- (length_map fst (plans a)), skipn_all, Nat.sub_diag.
    reflexivity.
  - intros k. rewrite map_app. intros Hin.
    cbn [planCount setPlans setPlanCount].
    apply in_app_or in Hin as [Hin|[<-|[]]]; [apply Hk in Hin; lia|cbn [fst]; lia].
Qed.

Lemma addPlan_fresh_slot_witness :
  exists a', _addPlan optAether optB = Ok (4, a') /\
  ~ In 4 (map fst (plans optAether)) /\
  map fst (plans a') = map fst (plans optAether) ++ [4] /\
  (forall k, k <> 4 -> lookupSlot (plans a') k = lookupSlot (plans optAether) k) /\
  lookupPlan (plans a') 4 = Some optB /\
  getPlanIds a' (List.length (plans optAether)) = [4] /\
  KeysBelow a'.
Proof.
  eexists. split; [vm_compute; reflexivity|].
  apply (addPlan_fresh_slot optAether _ optB 4).
  - intros k Hk. cbn in Hk. cbn. lia.
  - vm_compute. reflexivity.
Defined.

(** ** [getPlan] *)



Lemma lookupPlan_sweep t act k :
  lookupPlan (sweep t act) k =
  match lookupPlan t k with
  | Some p => if memPlan p act then Some p else None
  | None => None
  end.
Proof.
  induction t as [|[k' o] t IH]; cbn [lookupPlan sweep map fst snd]; [reflexivity|].
  fold (sweep t act).
  destruct o as [p|]; [destruct (memPlan p act) eqn:Em|]; cbn [lookupPlan fst snd];
    destruct (Nat.eqb k k'); try rewrite Em; try exact IH; reflexivity.
Qed.



(** ** Tree shaking twice *)

Lemma mark_fold_incl t f : forall ds acc1 acc2,
  foldM (fun acc d => markPlanActive f t (lookupPlan t d) acc) ds acc1 = Ok acc2 ->
  incl acc1 acc2.
Proof.
  induction ds as [|d ds IH]; intros acc1 acc2 H; cbn [foldM] in H.
  - injection H as <-. intros x Hx; exact Hx.
  - destruct (markPlanActive f t (lookupPlan t d) acc1) as [acc3|m] eqn:E3; cbn [bind] in H;
      [|discriminate].
    destruct (markPlanActive_complete t _ _ _ _ E3) as [_ [Hinc _]].
    intros x Hx. apply (IH _ _ H), Hinc, Hx.
Qed.

Section Agree.
Variables t t' : PlanTable.
Variable Final : list ExecutablePlan.
  (** [t'] agrees with [t] on every slot holding a plan of [Final]. *)
Hypothesis Hag : forall d y, lookupPlan t d = Some y -> In y Final -> lookupPlan t' d = Some y.

Lemma markPlanActive_agree fuel : forall o acc acc',
    markPlanActive fuel t o acc = Ok acc' -> incl acc' Final ->
    markPlanActive fuel t' o acc = Ok acc'.
  Proof.
    induction fuel as [|f IH]; intros o acc acc' H Hinc; cbn [markPlanActive] in H |- *;
      [discriminate|].
    destruct o as [p|]; [|discriminate].
    destruct (memPlan p acc); [exact H|].
    revert H Hinc. generalize (acc ++ [p]) as acc0.
    induction (dependencies p) as [|d ds IHds]; intros acc1 H Hinc; cbn [foldM] in H |- *;
      [exact H|].
    destruct (markPlanActive f t (lookupPlan t d) acc1) as [acc3|m] eqn:E3; cbn [bind] in H;
      [|discriminate].
    pose proof (mark_fold_incl t f _ _ _ H) as Hinc3.
    destruct (markPlanActive_complete t _ _ _ _ E3) as [[y [Hy Hyin]] _].
    assert (Hy' : lookupPlan t' d = Some y) by (apply Hag; [exact Hy|apply Hinc, Hinc3, Hyin]).
    rewrite Hy'. rewrite Hy in E3.
    rewrite (IH _ _ _ E3 (fun x Hx => Hinc x (Hinc3 x Hx))). cbn [bind].
    exact (IHds acc3 H Hinc).
  Qed.

Lemma markAll_agree : forall ids acc acc',
    List.length t' = List.length t ->
    markAll t ids acc = Ok acc' -> incl acc' Final -> markAll t' ids acc = Ok acc'.
  Proof.
    unfold markAll. intros ids. induction ids as [|i ids IH]; intros acc acc' Hlen H Hinc;
      cbn [foldM] in H |- *; [exact H|].
    destruct (markPlanActive (S (List.length t)) t (lookupPlan t i) acc) as [acc3|m] eqn:E3;
      cbn [bind] in H; [|discriminate].
    assert (Hinc3 : incl acc3 acc') by (exact (proj1 (markAll_complete t ids acc3 acc' H))).
    destruct (markPlanActive_complete t _ _ _ _ E3) as [[y [Hy Hyin]] _].
    assert (Hy' : lookupPlan t' i = Some y) by (apply Hag; [exact Hy|apply Hinc, Hinc3, Hyin]).
    rewrite Hlen, Hy'. rewrite Hy in E3.
    rewrite (markPlanActive_agree _ _ _ _ E3 (fun x Hx => Hinc x (Hinc3 x Hx))). cbn [bind].
    rewrite <- Hlen. exact (IH acc3 acc' Hlen H Hinc).
  Qed.
End Agree.

Lemma sweep_idempotent t act : sweep (sweep t act) act = sweep t act.
Proof.
  unfold sweep. rewrite map_map. apply map_ext. intros [k [p|]]; cbn [fst snd]; [|reflexivity].
  destruct (memPlan p act) eqn:Em; cbn [fst snd]; [rewrite Em|]; reflexivity.
Qed.

(** X4: tree shaking is idempotent: shaking the table [treeShakePlans]
    left behind succeeds and changes nothing (the plans kept are exactly
    those still reachable, and none of their dependencies was nulled). *)
Theorem treeShakePlans_idempotent (a a' : Aether) :
  treeShakePlans a = Ok a' -> treeShakePlans a' = Ok a'.
Proof.
  unfold treeShakePlans at 1. destruct (markAll _ _ _) as [act|m] eqn:E; cbn [bind];
    intros H; [|discriminate].
  injection H as <-. unfold treeShakePlans.
  assert (Hseeds : seedPlanIds (setPlans a (sweep (plans a) act)) = seedPlanIds a) by reflexivity.
  rewrite Hseeds. cbn [plans setPlans].
  rewrite (markAll_agree (plans a) (sweep (plans a) act) act) with (acc' := act).
  - cbn [bind]. rewrite sweep_idempotent. destruct a; reflexivity.
  - intros d y Hy Hin. rewrite lookupPlan_sweep, Hy.
    apply memPlan_In in Hin. rewrite Hin. reflexivity.
  - unfold sweep. apply length_map.
  - exact E.
  - intros x Hx; exact Hx.
Qed.

Lemma treeShakePlans_idempotent_witness :
  exists a', treeShakePlans optAether = Ok a' /\ treeShakePlans a' = Ok a'.
Proof.
  eexists. split; [vm_compute; reflexivity|].
  apply (treeShakePlans_idempotent optAether). vm_compute. reflexivity.
Defined.

(** ** [deduplicatePlans] *)

(** X5: what [deduplicatePlans] returns is a fixed point of a
    deduplication pass: one more pass makes no replacement and leaves the
    compiler state as it is. *)
Theorem deduplicatePlans_fixpoint dm (a a' : Aether) (offset : nat) :
  deduplicatePlans dm a offset = Ok a' -> deduplicatePass dm a' offset = Ok (a', 0).
Proof.
  unfold deduplicatePlans. revert a.
  assert (G : forall budget loops a, deduplicateLoop dm budget loops a offset = Ok a' ->
                deduplicatePass dm a' offset = Ok (a', 0)); [|intros a; apply G].
  intros budget. induction budget as [|b IH]; intros loops a H;
    cbn [deduplicateLoop] in H.
  - destruct (Nat.ltb 10000 loops); discriminate.
  - destruct (Nat.ltb 10000 loops); [discriminate|].
    destruct (deduplicatePass dm a offset) as [[a1 reps]|m] eqn:E; cbn [bind] in H;
      [|discriminate].
    destruct (Nat.ltb 0 reps) eqn:Er; [exact (IH (S loops) a1 H)|].
    injection H as <-. apply Nat.ltb_ge in Er. assert (reps = 0) as -> by lia.
    assert (Ha : a1 = a).
    { unfold deduplicatePass in E.
      exact (processPlans_no_replacement DependenciesFirst (deduplicateCallback dm)
               (deduplicateCallback_pure dm) a offset a1 E). }
    rewrite Ha in E |- *. exact E.
Qed.

Lemma deduplicatePlans_fixpoint_witness :
  exists a', deduplicatePlans firstPeer dedupAether 0 = Ok a' /\
  deduplicatePass firstPeer a' 0 = Ok (a', 0).
Proof.
  eexists. split; [vm_compute; reflexivity|].
  apply (deduplicatePlans_fixpoint firstPeer dedupAether). vm_compute. reflexivity.
Defined.

End CompilerExtraFacts.

Module LookupFacts.
Import Compiler Lookup CompilerFacts.

(** ** [findPath] *)








Lemma findPathDeps_caches a anc desc rec : forall ds c0 c1 k,
  findPathDeps a anc desc rec ds c0 = Ok (c1, k) -> cacheGet c1 anc desc = Some k.
Proof.
  assert (Hset : forall c v, cacheGet (cacheSet c anc desc v) anc desc = Some v).
  { intros c v. unfold cacheSet. cbn [cacheGet].
    rewrite (proj2 (planEqb_true anc anc) eq_refl), (proj2 (planEqb_true desc desc) eq_refl).
    reflexivity. }
  induction ds as [|d ds IH]; intros c0 c1 k H; cbn [findPathDeps] in H.
  - injection H as <- <-. apply Hset.
  - destruct (optPlanEqb (lookupPlan (plans a) d) (Some anc)).
    + injection H as <- <-. apply Hset.
    + destruct (rec c0 (lookupPlan (plans a) d)) as [[c2 [p2|]]|m]; cbn [bind] in H;
        [injection H as <- <-; apply Hset|exact (IH _ _ _ H)|discriminate].
Qed.

(** X7: [findPath] answers a repeated question the same way: once a call
    has returned, asking again for the same ancestor and descendant (with
    any recursion budget) returns the same answer and leaves the
    [_pathByDescendent] maps as they are. *)
Theorem findPath_memoised (a : Aether) (fuel : nat) (c : PathCache)
    (ancestorPlan descendentPlan : ExecutablePlan) (c' : PathCache) (known : option (list ExecutablePlan)) :
  findPath fuel a c ancestorPlan (Some descendentPlan) = Ok (c', known) ->
  forall fuel', findPath (S fuel') a c' ancestorPlan (Some descendentPlan) = Ok (c', known).
Proof.
  intros H fuel'. destruct fuel as [|f]; cbn [findPath] in H |- *; [discriminate|].
  destruct (cacheGet c ancestorPlan descendentPlan) as [k|] eqn:Ek.
  { injection H as <- <-. rewrite Ek. reflexivity. }
  destruct (planEqb ancestorPlan descendentPlan).
  { injection H as <- <-. rewrite Ek. reflexivity. }
  destruct (isValuePlanClass descendentPlan).
  { injection H as <- <-. rewrite Ek. reflexivity. }
  destruct (Phase_eq_dec (phase a) ready); [|discriminate].
  rewrite (findPathDeps_caches _ _ _ _ _ _ _ _ H). reflexivity.
Qed.

Lemma findPath_memoised_witness :
  exists c', findPath 10 fpAether [] fpRoot (Some fpLeaf) = Ok (c', Some [fpMid; fpLeaf]) /\
  findPath 1 fpAether c' fpRoot (Some fpLeaf) = Ok (c', Some [fpMid; fpLeaf]).
Proof.
  eexists. split; [vm_compute; reflexivity|].
  apply (findPath_memoised fpAether 10 []). vm_compute. reflexivity.
Defined.

(** ** Modifier plans *)

Lemma addModifierPlans_fold {M} : forall (created : list M) ids (s : ModifierState M),
  planCreationAllowed (modifierPhase s) = true ->
  foldM (fun acc p =>
           r1 <- _addModifierPlan (snd acc) p ;;
           Ok (fst acc ++ [fst r1], snd r1)) created (ids, s) =
  Ok (ids ++ seq (modifierPlanCount s) (List.length created),
      mkModifierState (modifierPhase s) (modifierPlanCount s + List.length created)
                      (modifierPlans s ++ created)).
Proof.
  induction created as [|p created IH]; intros ids s Hph; cbn [foldM List.length].
  - rewrite !app_nil_r, Nat.add_0_r. destruct s; reflexivity.
  - cbn [snd]. unfold _addModifierPlan at 1. rewrite Hph. cbn [negb bind fst snd].
    rewrite IH by exact Hph. cbn [modifierPhase modifierPlanCount modifierPlans seq].
    rewrite <- !app_assoc, Nat.add_succ_r. reflexivity.
Qed.

(** X8: starting with no pending modifier plan, in a phase where plans may
    be created, the modifier plans created while a field's arguments are
    planned get the consecutive ids [modifierPlanCount],
    [modifierPlanCount + 1], ... in creation order, are applied in the
    reverse order, and leave no modifier plan pending and the counter back
    at zero (so the ids of the next field start again at [_0]). *)
Theorem planFieldArguments_modifier_ids {M} (s : ModifierState M) (created : list M) :
  planCreationAllowed (modifierPhase s) = true -> modifierPlans s = [] ->
  planFieldArgumentsModifiers s created =
    Ok (seq (modifierPlanCount s) (List.length created), rev created,
        mkModifierState (modifierPhase s) 0 []).
Proof.
  intros Hph Hnil. unfold planFieldArgumentsModifiers. rewrite Hnil.
  rewrite addModifierPlans_fold by exact Hph. cbn [bind app modifierPlans modifierPhase].
  rewrite Hnil. reflexivity.
Qed.

Lemma planFieldArguments_modifier_ids_witness :
  planFieldArgumentsModifiers (mkModifierState plan 0 []) [10; 11; 12] =
    Ok ([0; 1; 2], [12; 11; 10], mkModifierState plan 0 []).
Proof.
  exact (planFieldArguments_modifier_ids (mkModifierState plan 0 []) [10; 11; 12]
           eq_refl eq_refl).
Defined.

(** ** [isTypePlanned] *)



(** ** The [assignGroupIds] callback *)

Lemma fold_setAdd : forall l s, NoDup s ->
  NoDup (fold_left setAdd l s) /\ (exists added, fold_left setAdd l s = s ++ added) /\
  forall g, In g (fold_left setAdd l s) <-> In g s \/ In g l.
Proof.
  induction l as [|x l IH]; intros s Hs; cbn [fold_left].
  - split; [exact Hs|]. split; [exists []; rewrite app_nil_r; reflexivity|].
    intros g. split; [auto|intros [H|[]]; exact H].
  - assert (Hx : NoDup (setAdd s x) /\ (exists added, setAdd s x = s ++ added) /\
                 forall g, In g (setAdd s x) <-> In g s \/ g = x).
    { unfold setAdd. destruct (existsb (Nat.eqb x) s) eqn:E.
      - apply existsb_exists in E as [y [Hy Exy]]. apply Nat.eqb_eq in Exy. subst y.
        split; [exact Hs|]. split; [exists []; rewrite app_nil_r; reflexivity|].
        intros g. split; [auto|intros [H| ->]; assumption].
      - assert (Hn : ~ In x s).
        { intros Hin. assert (existsb (Nat.eqb x) s = true)
            by (apply existsb_exists; exists x; rewrite Nat.eqb_refl; auto). congruence. }
        split; [apply NoDup_app; [exact Hs|constructor; [intros []|constructor]|]|].
        { intros y Hy [<-|[]]. contradiction. }
        split; [exists [x]; reflexivity|].
        intros g. rewrite in_app_iff. cbn [In]. split; [intros [H|[H|[]]]; auto|].
        intros [H|H]; auto. }
    destruct Hx as [Hnd [[ad Had] Hin]].
    destruct (IH _ Hnd) as [Hnd' [[ad' Had'] Hin']].
    split; [exact Hnd'|]. split; [exists (ad ++ ad'); rewrite Had', Had, app_assoc; reflexivity|].
    intros g. rewrite Hin', Hin. cbn [In].
    split; [intros [[H|H]|H]; [left; exact H|right; left; symmetry; exact H|right; right; exact H]|].
    intros [H|[H|H]]; [left; left; exact H|left; right; symmetry; exact H|right; exact H].
Qed.

(** X10: the [assignGroupIds] callback throws exactly when the field path
    has no group ids recorded; otherwise it only appends to
    [plan.groupIds], keeps it free of duplicates, and afterwards it holds
    exactly the old ids and the group ids of the field path. *)
Theorem assignGroupIds_callback_set (groupIdsByPathIdentity : list (string * list nat))
    (fieldPathIdentity : string) (planGroupIds : list nat) :
  NoDup planGroupIds ->
  ((exists m, assignGroupIdsCallback groupIdsByPathIdentity fieldPathIdentity planGroupIds = Throw m) <->
     ~ exists groupIds, In (fieldPathIdentity, groupIds) groupIdsByPathIdentity) /\
  (forall gids', assignGroupIdsCallback groupIdsByPathIdentity fieldPathIdentity planGroupIds = Ok gids' ->
     NoDup gids' /\ (exists added, gids' = planGroupIds ++ added) /\
     exists groupIds, In (fieldPathIdentity, groupIds) groupIdsByPathIdentity /\
       forall g, In g gids' <-> In g planGroupIds \/ In g groupIds).
Proof.
  intros Hnd. unfold assignGroupIdsCallback.
  destruct (find (fun kv => String.eqb (fst kv) fieldPathIdentity) groupIdsByPathIdentity)
    as [[k groupIds]|] eqn:Ef.
  - apply find_some in Ef as [Hin Hk]. cbn [fst snd] in Hk. apply String.eqb_eq in Hk. subst k.
    split; [split; [intros [m Hm]; discriminate|intros Hno; exfalso; apply Hno; eauto]|].
    intros gids' H. injection H as <-. cbn [snd].
    destruct (fold_setAdd groupIds planGroupIds Hnd) as [H1 [H2 H3]].
    split; [exact H1|]. split; [exact H2|]. exists groupIds. split; [exact Hin|exact H3].
  - split; [split; [intros _ [groupIds Hin]|intros _; eexists; reflexivity]|intros gids' H; discriminate].
    pose proof (find_none _ _ Ef _ Hin) as Hne. cbn [fst] in Hne.
    rewrite String.eqb_refl in Hne. discriminate.
Qed.

Lemma assignGroupIds_callback_set_witness :
  assignGroupIdsCallback [(">a", [1; 2])] ">a" [2; 3] = Ok [2; 3; 1] /\
  NoDup [2; 3; 1].
Proof.
  split; [reflexivity|].
  destruct (assignGroupIds_callback_set [(">a", [1; 2])] ">a" [2; 3]) as [_ H].
  - repeat constructor; cbn; intuition discriminate.
  - exact (proj1 (H [2; 3; 1] eq_refl)).
Defined.

End LookupFacts.

Module DotEscapeFacts.
Import DotEscape.

Lemma chars_app s1 s2 :
  list_ascii_of_string (s1 ++ s2) = list_ascii_of_string s1 ++ list_ascii_of_string s2.
Proof. induction s1 as [|c s1 IH]; cbn; [reflexivity|rewrite IH; reflexivity]. Qed.

Lemma allPlain_chars s : allPlain s = true ->
  forall c, In c (list_ascii_of_string s) -> isPlainChar c = true.
Proof.
  induction s as [|c s IH]; cbn [allPlain list_ascii_of_string In]; [intros _ c []|].
  intros H. apply andb_true_iff in H as [Hc Hs]. intros c' [<-|Hin]; [exact Hc|exact (IH Hs c' Hin)].
Qed.

Lemma escapeHashQuote_chars : forall s c,
  In c (list_ascii_of_string (escapeHashQuote s)) ->
  c <> dquote /\ (c = lf -> In lf (list_ascii_of_string s)).
Proof.
  induction s as [|x s IH]; intros c; cbn [escapeHashQuote list_ascii_of_string]; [intros []|].
  destruct (Ascii.eqb x "#"%char) eqn:Eh; [|destruct (Ascii.eqb x dquote) eqn:Eq].
  1, 2: rewrite chars_app; intros Hin; apply in_app_or in Hin as [Hin|Hin];
    [cbn in Hin; repeat destruct Hin as [<-|Hin]; try contradiction;
       (split; [discriminate|discriminate])
    |destruct (IH c Hin) as (H1 & H2); split; [exact H1|];
       intros E; right; exact (H2 E)].
  cbn [In]. intros [<-|Hin].
  - split; [intros E; rewrite E, Ascii.eqb_refl in Eq; discriminate|].
    intros E. left. exact E.
  - destruct (IH c Hin) as (H1 & H2). split; [exact H1|].
    intros E. right. exact (H2 E).
Qed.

Lemma escapeNewlines_chars : forall n s, String.length s <= n ->
  forall c, In c (list_ascii_of_string (escapeNewlines s)) ->
  c <> lf /\ (c = dquote -> In dquote (list_ascii_of_string s)).
Proof.
  assert (Hbr : forall c, In c (list_ascii_of_string "<br />") -> c <> lf /\ c <> dquote).
  { intros c Hin. cbn in Hin. repeat destruct Hin as [<-|Hin]; try contradiction;
      split; discriminate. }
  induction n as [|n IH]; intros s Hlen c.
  { destruct s; cbn in Hlen; [intros []|lia]. }
  destruct s as [|x s]; cbn [escapeNewlines]; [intros []|].
  cbn [String.length] in Hlen.
  destruct (Ascii.eqb x cr) eqn:Ecr.
  - apply Ascii.eqb_eq in Ecr. subst x. destruct s as [|x2 s2].
    + cbn. intros [<-|[]]. split; [discriminate|discriminate].
    + destruct (Ascii.eqb x2 lf) eqn:Elf.
      * rewrite chars_app. intros Hin. apply in_app_or in Hin as [Hin|Hin].
        { destruct (Hbr c Hin) as [H1 H2]. split; [exact H1|intros E; contradiction]. }
        { cbn [String.length] in Hlen.
          destruct (IH s2 ltac:(lia) c Hin) as [H1 H2]. split; [exact H1|].
          intros E. cbn [list_ascii_of_string In]. right; right. exact (H2 E). }
      * cbn [list_ascii_of_string In]. intros [<-|Hin]; [split; discriminate|].
        destruct (IH (String x2 s2) ltac:(lia) c Hin) as [H1 H2]. split; [exact H1|].
        intros E. right. exact (H2 E).
  - destruct (Ascii.eqb x lf) eqn:Elf.
    + rewrite chars_app. intros Hin. apply in_app_or in Hin as [Hin|Hin].
      * destruct (Hbr c Hin) as [H1 H2]. split; [exact H1|intros E; contradiction].
      * destruct (IH s ltac:(lia) c Hin) as [H1 H2]. split; [exact H1|].
        intros E. cbn [list_ascii_of_string In]. right. exact (H2 E).
    + cbn [list_ascii_of_string In]. intros [<-|Hin].
      * split; [intros E; rewrite E, Ascii.eqb_refl in Elf; discriminate|].
        intros E. left. exact E.
      * destruct (IH s ltac:(lia) c Hin) as [H1 H2]. split; [exact H1|].
        intros E. right. exact (H2 E).
Qed.

(** X11: whatever [stripAnsi] does, the label [dotEscape] produces never
    contains a line feed, and its double quotes are only the delimiters:
    either the input is returned as it is and holds no double quote, or
    the label is a double quote, a body free of double quotes and line
    feeds, and a closing double quote. *)
Theorem dotEscape_safe_label (stripAnsi : string -> string) (str : string) :
  ~ In lf (list_ascii_of_string (dotEscape stripAnsi str)) /\
  ((dotEscape stripAnsi str = str /\ ~ In dquote (list_ascii_of_string str)) \/
   exists body, dotEscape stripAnsi str = String dquote (body ++ String dquote EmptyString) /\
     ~ In dquote (list_ascii_of_string body) /\ ~ In lf (list_ascii_of_string body)).
Proof.
  unfold dotEscape. destruct (matchesPlain str) eqn:Ep.
  - assert (Hall : allPlain str = true) by (destruct str; [discriminate|exact Ep]).
    pose proof (allPlain_chars str Hall) as Hc.
    split; [intros Hin; apply Hc in Hin; discriminate|].
    left. split; [reflexivity|]. intros Hin. apply Hc in Hin. discriminate.
  - set (body := escapeNewlines (escapeHashQuote (stripAnsi str))).
    assert (Hb : forall c, In c (list_ascii_of_string body) -> c <> lf /\ c <> dquote).
    { intros c Hin.
      destruct (escapeNewlines_chars _ _ (le_n _) c Hin) as [H1 H2].
      split; [exact H1|]. intros E. specialize (H2 E).
      exact (proj1 (escapeHashQuote_chars _ _ H2) eq_refl). }
    split.
    + cbn [list_ascii_of_string In]. rewrite chars_app. intros [E|Hin]; [discriminate|].
      apply in_app_or in Hin as [Hin|Hin]; [exact (proj1 (Hb _ Hin) eq_refl)|].
      cbn in Hin. destruct Hin as [E|[]]. discriminate.
    + right. exists body. split; [reflexivity|].
      split; intros Hin; apply Hb in Hin; tauto.
Qed.

End DotEscapeFacts.

Module SideEffectChainExtraFacts.
Import SideEffectChain SideEffectChainFacts.



End SideEffectChainExtraFacts.

(** * Further facts about [treeNodePath] and the common-ancestor assignment *)

Module CommonAncestorExtraFacts.
Import CommonAncestor CommonAncestorFacts.

(** The test of the [listChangeIndex] search: [previous] and [v] are the
    two sides of a list (item) boundary. *)
Definition listBoundary (previous v : TreeNode) : bool :=
  String.eqb (fieldPathIdentity previous) (fieldPathIdentity v)
  && negb (String.eqb (pathIdentity previous) (pathIdentity v)).

Lemma truncateAtListChange_no_boundary : forall rest previous i x y,
  nth_error (previous :: truncateAtListChange previous rest) i = Some x ->
  nth_error (previous :: truncateAtListChange previous rest) (S i) = Some y ->
  listBoundary x y = false.
Proof.
  induction rest as [|v rest IH]; intros previous i x y Hx Hy; cbn [truncateAtListChange] in Hx, Hy.
  - destruct i; discriminate.
  - destruct (String.eqb (fieldPathIdentity previous) (fieldPathIdentity v)
              && negb (String.eqb (pathIdentity previous) (pathIdentity v))) eqn:Hb.
    + destruct i; discriminate.
    + destruct i as [|i].
      * injection Hx as <-. injection Hy as <-. exact Hb.
      * exact (IH v i x y Hx Hy).
Qed.

Lemma truncateAtListChange_maximal : forall rest previous i x y,
  nth_error (previous :: truncateAtListChange previous rest) i = Some x ->
  nth_error (previous :: truncateAtListChange previous rest) (S i) = None ->
  nth_error (previous :: rest) (S i) = Some y ->
  listBoundary x y = true.
Proof.
  induction rest as [|v rest IH]; intros previous i x y Hx Hn Hy; cbn [truncateAtListChange] in Hx, Hn.
  - destruct i; discriminate.
  - destruct (String.eqb (fieldPathIdentity previous) (fieldPathIdentity v)
              && negb (String.eqb (pathIdentity previous) (pathIdentity v))) eqn:Hb.
    + destruct i as [|i]; [|destruct i; discriminate].
      injection Hx as <-. injection Hy as <-. exact Hb.
    + destruct i as [|i]; [discriminate|].
      exact (IH v i x y Hx Hn Hy).
Qed.

Lemma upFrom_cons s n : exists first rest, upFrom s n = first :: rest.
Proof.
  unfold upFrom. change [n] with ([] ++ [n]). rewrite (climb_app s n [] [n]).
  destruct (climb s n []) as [|f r]; [exists n, []; reflexivity|exists f, (r ++ [n]); reflexivity].
Qed.

(** X13: [treeNodePath] returns, from the topmost ancestor still under the start
    path identity down towards the node, the longest run of that chain that
    crosses no list boundary: it is a well-formed prefix of the full chain,
    no two consecutive nodes of it form a boundary, and it stops early only
    at a boundary. *)
Theorem treeNodePath_longest_prefix (treeNode : TreeNode) (startPathIdentity : string)
    (path : list TreeNode) :
  treeNodePath treeNode startPathIdentity = Ok path ->
  WellFormedPath startPathIdentity path /\
  (exists k, path = firstn (S k) (upFrom startPathIdentity treeNode)) /\
  (forall i x y, nth_error path i = Some x -> nth_error path (S i) = Some y ->
     listBoundary x y = false) /\
  (forall i x y, nth_error path i = Some x -> nth_error path (S i) = None ->
     nth_error (upFrom startPathIdentity treeNode) (S i) = Some y ->
     listBoundary x y = true).
Proof.
  unfold treeNodePath.
  destruct (startsWith (pathIdentity treeNode) startPathIdentity) eqn:Hs; cbn [negb];
    [|discriminate].
  intros E. injection E as <-.
  split; [exact (truncatedPath_wf _ _ Hs)|].
  split; [exact (truncatePath_firstn (upFrom startPathIdentity treeNode))|].
  change (truncatedPath startPathIdentity treeNode)
    with (truncatePath (upFrom startPathIdentity treeNode)).
  destruct (upFrom_cons startPathIdentity treeNode) as (first & rest & ->).
  cbn [truncatePath]. split.
  - apply truncateAtListChange_no_boundary.
  - apply truncateAtListChange_maximal.
Qed.

Lemma treeNodePath_longest_prefix_witness :
  exists path, treeNodePath exB ">a" = Ok path /\ path = [exA] /\
  upFrom ">a" exB = [exA; exItem; exB] /\
  WellFormedPath ">a" path /\
  (exists k, path = firstn (S k) (upFrom ">a" exB)) /\
  (forall i x y, nth_error path i = Some x -> nth_error path (S i) = Some y ->
     listBoundary x y = false) /\
  (forall i x y, nth_error path i = Some x -> nth_error path (S i) = None ->
     nth_error (upFrom ">a" exB) (S i) = Some y -> listBoundary x y = true).
Proof.
  eexists. split; [vm_compute; reflexivity|].
  split; [reflexivity|]. split; [vm_compute; reflexivity|].
  apply (treeNodePath_longest_prefix exB ">a"). vm_compute. reflexivity.
Defined.

Lemma allPaths_fold_ok s : forall treeNodes acc allPaths,
  foldM (fun acc n => p <- treeNodePath n s ;; Ok (acc ++ [p])) treeNodes acc = Ok allPaths ->
  (forall n, In n treeNodes -> startsWith (pathIdentity n) s = true) /\
  allPaths = acc ++ map (truncatedPath s) treeNodes.
Proof.
  induction treeNodes as [|n treeNodes IH]; intros acc allPaths H; cbn [foldM map] in H |- *.
  - injection H as <-. split; [intros n []|rewrite app_nil_r; reflexivity].
  - unfold treeNodePath at 1 in H.
    destruct (startsWith (pathIdentity n) s) eqn:Hn; cbn [negb bind] in H; [|discriminate].
    destruct (IH _ _ H) as [Hall ->]. split.
    + intros m [<-|Hm]; [exact Hn|exact (Hall m Hm)].
    + rewrite <- app_assoc. reflexivity.
Qed.


(** X14: The common-ancestor path identity a plan is assigned always starts with
    the plan's parent path identity, so it is empty only when the parent
    path identity is: the development-mode check
    [GraphileInternalError<1398689a-...>] after the loop never fires for a
    plan whose assignment succeeded. *)
Theorem commonAncestor_under_parent (parentPathIdentity : string)
    (treeNodes : list TreeNode) (cpi : string) :
  assignCommonAncestorPathIdentity parentPathIdentity treeNodes = Ok cpi ->
  startsWith cpi parentPathIdentity = true /\
  (cpi = "" -> parentPathIdentity = "").
Proof.
  unfold assignCommonAncestorPathIdentity, commonAncestorNode.
  destruct (foldM _ treeNodes []) as [allPaths|e] eqn:Hf; cbn [bind]; [|discriminate].
  destruct (allPaths_fold_ok _ _ _ _ Hf) as [Hall ->].
  destruct treeNodes as [|t0 ts]; cbn [app map]; [discriminate|].
  destruct (matchLoop 0 _ _ None) as [d|]; [|discriminate].
  destruct (nth_error (truncatedPath parentPathIdentity t0) d) as [c|] eqn:Hc; [|discriminate].
  cbn [bind]. intros E. injection E as <-.
  pose proof (truncatedPath_wf _ t0 (Hall t0 (or_introl eq_refl))) as (_ & _ & _ & HA).
  assert (Hcs : startsWith (pathIdentity c) parentPathIdentity = true)
    by exact (HA c (nth_error_In _ _ Hc)).
  split; [exact Hcs|].
  intros Hcpi. rewrite Hcpi in Hcs. unfold startsWith in Hcs.
  destruct parentPathIdentity; [reflexivity|discriminate].
Qed.

Lemma commonAncestor_under_parent_witness :
  exists cpi, assignCommonAncestorPathIdentity ">a[]" [exB; exC] = Ok cpi /\
  startsWith cpi ">a[]" = true /\ (cpi = "" -> ">a[]" = "").
Proof.
  eexists. split; [vm_compute; reflexivity|].
  apply (commonAncestor_under_parent ">a[]" [exB; exC]). vm_compute. reflexivity.
Defined.





End CommonAncestorExtraFacts.

(** * Further facts about [executePlan] and [executePlanAlt] *)

Module ExecutorExtraFacts.
Import Executor.

Definition isPR (e : PlanResultsEntry) : bool :=
  match e with PR _ => true | _ => false end.

(** The writes of the second loop of [executePlanAlt] for buckets that
    already hold a value, and the buckets it leaves pending. *)
Definition groupWrites (pid : nat) (s : list ((nat * nat) * Value)) (groups : list (nat * list nat))
  : list (nat * Value) :=
  flat_map (fun g => match bucketGet s (fst g) pid with
                     | Some v => map (fun i => (i, v)) (snd g)
                     | None => []
                     end) groups.

Definition pendingGroups (pid : nat) (s : list ((nat * nat) * Value)) (groups : list (nat * list nat))
  : list (nat * list nat) :=
  filter (fun g => match bucketGet s (fst g) pid with Some _ => false | None => true end) groups.



Lemma addToGroup_in b i groups g j : In g (addToGroup b i groups) -> In j (snd g) ->
  (fst g = b /\ j = i) \/ exists g', In g' groups /\ fst g' = fst g /\ In j (snd g').
Proof.
  unfold addToGroup. destruct (existsb _ groups).
  - intros Hg Hj. apply in_map_iff in Hg as [g0 [<- Hg0]].
    destruct (Nat.eqb_spec (fst g0) b) as [Eb|Eb]; cbn [fst snd] in Hj |- *.
    + apply in_app_or in Hj as [Hj|[<-|[]]]; [right; exists g0; auto|left; auto].
    + right. exists g0. auto.
  - intros Hg Hj. apply in_app_or in Hg as [Hg|[<-|[]]].
    + right. exists g. auto.
    + left. cbn in Hj |- *. destruct Hj as [<-|[]]. auto.
Qed.

Lemma addToGroup_keeps b i groups g j : In g groups -> In j (snd g) ->
  exists g', In g' (addToGroup b i groups) /\ fst g' = fst g /\ In j (snd g').
Proof.
  intros Hg Hj. unfold addToGroup. destruct (existsb _ groups).
  - exists (if Nat.eqb (fst g) b then (fst g, snd g ++ [i]) else g).
    split; [apply in_map_iff; exists g; split; [reflexivity|exact Hg]|].
    destruct (Nat.eqb (fst g) b); cbn [fst snd]; [split; [reflexivity|apply in_or_app; left; exact Hj]|auto].
  - exists g. split; [apply in_or_app; left; exact Hg|auto].
Qed.

Lemma addToGroup_adds b i groups :
  exists g', In g' (addToGroup b i groups) /\ fst g' = b /\ In i (snd g').
Proof.
  unfold addToGroup. destruct (existsb _ groups) eqn:E.
  - apply existsb_exists in E as [g0 [Hg0 Eb]]. apply Nat.eqb_eq in Eb.
    exists (fst g0, snd g0 ++ [i]). split.
    + apply in_map_iff. exists g0. split; [rewrite Eb, Nat.eqb_refl; reflexivity|exact Hg0].
    + cbn [fst snd]. split; [exact Eb|apply in_or_app; right; left; reflexivity].
  - exists (b, [i]). split; [apply in_or_app; right; left; reflexivity|cbn; auto].
Qed.

Lemma addToGroup_nonempty b i groups :
  (forall g, In g groups -> snd g <> []) -> forall g, In g (addToGroup b i groups) -> snd g <> [].
Proof.
  intros H g. unfold addToGroup. destruct (existsb _ groups).
  - intros Hg. apply in_map_iff in Hg as [g0 [<- Hg0]].
    destruct (Nat.eqb (fst g0) b); [cbn [snd]; destruct (snd g0); discriminate|exact (H g0 Hg0)].
  - intros Hg. apply in_app_or in Hg as [Hg|[<-|[]]]; [exact (H g Hg)|discriminate].
Qed.

Lemma groupByBucket_nonempty : forall prs i groups,
  (forall g, In g groups -> snd g <> []) ->
  forall g, In g (groupByBucket prs i groups) -> snd g <> [].
Proof.
  induction prs as [|e rest IH]; intros i groups H; cbn [groupByBucket]; [exact H|].
  destruct e; apply IH; try exact H. apply addToGroup_nonempty. exact H.
Qed.

Section Groups.
Variable all : list PlanResultsEntry.

Lemma suffix_step e rest i : (forall k, nth_error all (i + k) = nth_error (e :: rest) k) ->
  nth_error all i = Some e /\ forall k, nth_error all (S i + k) = nth_error rest k.
Proof.
  intros H. split.
  - rewrite <- (Nat.add_0_r i). exact (H 0).
  - intros k. transitivity (nth_error (e :: rest) (S k)); [|reflexivity]. rewrite <- H. f_equal. lia.
Qed.

Lemma groupByBucket_consistent : forall prs i groups,
  (forall k, nth_error all (i + k) = nth_error prs k) ->
  (forall g j, In g groups -> In j (snd g) -> nth_error all j = Some (PR (fst g))) ->
  forall g j, In g (groupByBucket prs i groups) -> In j (snd g) ->
    nth_error all j = Some (PR (fst g)).
Proof.
  induction prs as [|e rest IH]; intros i groups Hall Hg; cbn [groupByBucket]; [exact Hg|].
  destruct (suffix_step e rest i Hall) as [He Hrest].
  destruct e as [|e|b]; apply (IH (S i)); try exact Hrest; try exact Hg.
  intros g j Hin Hj. destruct (addToGroup_in _ _ _ _ _ Hin Hj) as [[Eb ->]|(g' & Hg' & Eg & Hj')].
  - rewrite Eb. exact He.
  - rewrite <- Eg. exact (Hg g' j Hg' Hj').
Qed.

Lemma groupByBucket_covers : forall prs i groups,
  (forall k, nth_error all (i + k) = nth_error prs k) ->
  (forall j b, j < i -> nth_error all j = Some (PR b) ->
     exists g, In g groups /\ fst g = b /\ In j (snd g)) ->
  forall j b, nth_error all j = Some (PR b) ->
    exists g, In g (groupByBucket prs i groups) /\ fst g = b /\ In j (snd g).
Proof.
  induction prs as [|e rest IH]; intros i groups Hall Hcov j b Hj; cbn [groupByBucket].
  - destruct (Nat.lt_ge_cases j i) as [Hlt|Hge]; [exact (Hcov j b Hlt Hj)|].
    specialize (Hall (j - i)). replace (i + (j - i)) with j in Hall by lia.
    rewrite Hall in Hj. destruct (j - i); discriminate.
  - destruct (suffix_step e rest i Hall) as [He Hrest].
    destruct e as [|e|b0]; apply (IH (S i)); try exact Hrest; try exact Hj;
      intros j' b' Hj' Hb';
      (destruct (Nat.lt_ge_cases j' i) as [Hlt|Hge];
       [|assert (j' = i) as -> by lia; rewrite He in Hb'; try discriminate Hb']).
    + exact (Hcov j' b' Hlt Hb').
    + exact (Hcov j' b' Hlt Hb').
    + destruct (Hcov j' b' Hlt Hb') as (g & Hg & Eg & Hjg).
      destruct (addToGroup_keeps b0 i groups g j' Hg Hjg) as (g' & Hg' & Eg' & Hj'').
      exists g'. split; [exact Hg'|]. split; [congruence|exact Hj''].
    + injection Hb' as <-. apply addToGroup_adds.
Qed.

Lemma initialWrites_consistent : forall prs i,
  (forall k, nth_error all (i + k) = nth_error prs k) ->
  forall j v, In (j, v) (initialWrites prs i) ->
    exists e, nth_error all j = Some e /\ isPR e = false /\
      forall pl s, itemValue pl s e = v.
Proof.
  induction prs as [|e rest IH]; intros i Hall j v Hin; cbn [initialWrites] in Hin; [destruct Hin|].
  destruct (suffix_step e rest i Hall) as [He Hrest].
  destruct e as [|e|b]; [destruct Hin as [E|Hin]|destruct Hin as [E|Hin]|];
    try exact (IH (S i) Hrest j v Hin).
  - injection E as <- <-. exists PRNull. auto.
  - injection E as <- <-. exists (PRCrystalError e). auto.
Qed.

Lemma initialWrites_covers : forall prs i,
  (forall k, nth_error all (i + k) = nth_error prs k) ->
  forall j e, i <= j -> nth_error all j = Some e -> isPR e = false ->
    forall pl s, In (j, itemValue pl s e) (initialWrites prs i).
Proof.
  induction prs as [|e0 rest IH]; intros i Hall j e Hij Hj Hpr pl s.
  - specialize (Hall (j - i)). replace (i + (j - i)) with j in Hall by lia.
    rewrite Hall in Hj. destruct (j - i); discriminate.
  - destruct (suffix_step e0 rest i Hall) as [He Hrest].
    destruct (Nat.eq_dec j i) as [->|Hne].
    + rewrite He in Hj. injection Hj as <-.
      destruct e0 as [|e0|b]; cbn [initialWrites itemValue]; [left; reflexivity|left; reflexivity|discriminate].
    + assert (Hlt : S i <= j) by lia.
      pose proof (IH (S i) Hrest j e Hlt Hj Hpr pl s) as H.
      destruct e0; cbn [initialWrites]; [right|right|]; exact H.
Qed.

End Groups.

Lemma resultOf_eq (f : nat -> Value) n writes :
  (forall j, j < n -> exists v, In (j, v) writes) ->
  (forall j v, In (j, v) writes -> j < n -> v = f j) ->
  resultOf n writes = map f (seq 0 n).
Proof.
  intros Hcov Hcons. unfold resultOf. apply map_ext_in. intros j Hj.
  apply in_seq in Hj. destruct (Hcov j ltac:(lia)) as [v Hv].
  destruct (find (fun w => Nat.eqb (fst w) j) (rev writes)) as [w|] eqn:Hf.
  - apply find_some in Hf as [Hw Heq]. apply Nat.eqb_eq in Heq. apply in_rev in Hw.
    destruct w as [j' v']. cbn [fst snd] in Heq |- *. subst j'. apply Hcons; [exact Hw|lia].
  - exfalso. pose proof (find_none _ _ Hf (j, v) (proj1 (in_rev _ _) Hv)) as H.
    cbn [fst] in H. rewrite Nat.eqb_refl in H. discriminate.
Qed.

Lemma map_as_seq {A B} (f : A -> B) (l : list A) (d : A) :
  map f l = map (fun j => f (nth j l d)) (seq 0 (List.length l)).
Proof.
  induction l as [|x l IH]; [reflexivity|].
  cbn [map List.length seq]. rewrite <- seq_shift, map_map. rewrite IH at 1. reflexivity.
Qed.

Lemma altLoop_ok plan s : forall groups writes pending,
  (isValuePlan plan = false \/ forall g, In g groups -> bucketGet s (fst g) (xid plan) <> None) ->
  altLoop plan s groups writes pending =
    Ok (writes ++ groupWrites (xid plan) s groups, pending ++ pendingGroups (xid plan) s groups).
Proof.
  unfold groupWrites, pendingGroups.
  induction groups as [|[b idxs] rest IH]; intros writes pending H.
  - cbn. rewrite !app_nil_r. reflexivity.
  - cbn [altLoop flat_map filter fst snd].
    assert (H' : isValuePlan plan = false \/
                 forall g, In g rest -> bucketGet s (fst g) (xid plan) <> None)
      by (destruct H as [H|H]; [left; exact H|right; intros g Hg; apply H; right; exact Hg]).
    destruct (bucketGet s b (xid plan)) as [v|] eqn:Hb.
    + rewrite (IH _ _ H'), app_assoc. reflexivity.
    + destruct H as [Hv|Hall].
      * rewrite Hv, (IH _ _ H'), <- app_assoc. reflexivity.
      * exfalso. exact (Hall (b, idxs) (or_introl eq_refl) Hb).
Qed.

Lemma altLoop_value_throw plan s : isValuePlan plan = true ->
  forall groups writes pending g, In g groups -> bucketGet s (fst g) (xid plan) = None ->
  altLoop plan s groups writes pending = Throw valuePlanError.
Proof.
  intros Hv. induction groups as [|[b idxs] rest IH]; intros writes pending g Hg Hb; [destruct Hg|].
  cbn [altLoop]. destruct (bucketGet s b (xid plan)) as [v|] eqn:Hb'.
  - destruct Hg as [<-|Hg]; [cbn [fst] in Hb; congruence|]. exact (IH _ _ g Hg Hb).
  - rewrite Hv. reflexivity.
Qed.

Lemma groups_of prs :
  (forall g j, In g (groupByBucket prs 0 []) -> In j (snd g) -> nth_error prs j = Some (PR (fst g))) /\
  (forall j b, nth_error prs j = Some (PR b) ->
     exists g, In g (groupByBucket prs 0 []) /\ fst g = b /\ In j (snd g)) /\
  (forall g, In g (groupByBucket prs 0 []) -> snd g <> []).
Proof.
  split; [|split].
  - apply (groupByBucket_consistent prs prs 0 []); [reflexivity|intros g j []].
  - apply (groupByBucket_covers prs prs 0 []); [reflexivity|intros j b Hj; lia].
  - apply groupByBucket_nonempty. intros g [].
Qed.

Lemma executePlanAlt_filled execute plan st prs :
  (forall b, In (PR b) prs -> bucketGet (store st) b (xid plan) <> None) ->
  executePlanAlt execute plan st prs = (st, Direct (map (itemValue plan (store st)) prs)).
Proof.
  intros Hfill. unfold executePlanAlt. destruct (isItemPlan plan); [reflexivity|].
  destruct (groups_of prs) as (Hcons & Hcov & Hne).
  assert (HG : forall g, In g (groupByBucket prs 0 []) -> bucketGet (store st) (fst g) (xid plan) <> None).
  { intros g Hg. destruct (snd g) as [|j js] eqn:Es; [exact (False_ind _ (Hne g Hg Es))|].
    apply Hfill. apply (nth_error_In _ j). apply (Hcons g j Hg). rewrite Es. left. reflexivity. }
  rewrite (altLoop_ok plan (store st) _ _ _ (or_intror HG)).
  destruct (pendingGroups (xid plan) (store st) (groupByBucket prs 0 [])) as [|g0 gs] eqn:Hp.
  2: { exfalso. assert (Hin : In g0 (pendingGroups (xid plan) (store st) (groupByBucket prs 0 [])))
         by (rewrite Hp; left; reflexivity).
       apply filter_In in Hin as [Hg0 Hm]. apply (HG g0 Hg0).
       destruct (bucketGet (store st) (fst g0) (xid plan)); [discriminate|reflexivity]. }
  cbn [app]. f_equal. f_equal.
  rewrite (map_as_seq _ prs PRNull). apply resultOf_eq.
  - intros j Hj. destruct (nth_error prs j) as [e|] eqn:He.
    2: { apply nth_error_None in He. lia. }
    destruct (isPR e) eqn:Hpr.
    + destruct e as [| |b]; try discriminate Hpr.
      destruct (Hcov j b He) as (g & Hg & Eg & Hjg).
      destruct (bucketGet (store st) b (xid plan)) as [v|] eqn:Hb.
      2: { exfalso. exact (Hfill b (nth_error_In _ _ He) Hb). }
      exists v. apply in_or_app. right. apply in_flat_map. exists g. split; [exact Hg|].
      rewrite Eg, Hb. apply (in_map (fun i => (i, v))). exact Hjg.
    + exists (itemValue plan (store st) e). apply in_or_app. left.
      apply (initialWrites_covers prs prs 0); [reflexivity|lia|exact He|exact Hpr].
  - intros j v Hin Hj. apply in_app_or in Hin as [Hin|Hin].
    + destruct (initialWrites_consistent prs prs 0 (fun k => eq_refl) j v Hin)
        as (e & He & _ & Hv).
      rewrite (nth_error_nth _ _ _ He). symmetry. apply Hv.
    + apply in_flat_map in Hin as [g [Hg Hin]].
      destruct (bucketGet (store st) (fst g) (xid plan)) as [v'|] eqn:Hb; [|destruct Hin].
      apply in_map_iff in Hin as [i [E Hi]]. injection E as -> ->.
      rewrite (nth_error_nth _ _ _ (Hcons g j Hg Hi)). cbn [itemValue]. rewrite Hb. reflexivity.
Qed.

(** X16: When every [PlanResults] bucket of the batch already holds a value for
    the plan, and the plan has no cached result for these [planResultses],
    [executePlan] answers synchronously with, for each parent, [null] for a
    [null] entry, the [CrystalError] itself for a [CrystalError] entry and
    the bucket's value otherwise; it leaves the state as it was (in
    particular it never calls [execute]) and caches the answer. *)
Theorem executePlan_filled_buckets (execute : nat -> ExecOutcome)
    (cache : list (nat * CallResult)) (st : ExecState) (plan : XPlan)
    (prs : list PlanResultsEntry) :
  find (fun kv => Nat.eqb (fst kv) (xid plan)) cache = None ->
  (forall b, In (PR b) prs -> bucketGet (store st) b (xid plan) <> None) ->
  executePlan execute cache st plan prs =
    (st, Direct (map (itemValue plan (store st)) prs),
     (xid plan, Direct (map (itemValue plan (store st)) prs)) :: cache).
Proof.
  intros Hc Hfill. unfold executePlan. rewrite Hc.
  rewrite (executePlanAlt_filled execute plan st prs Hfill). reflexivity.
Qed.

Definition filledState : ExecState := mkExecState [((7, 5), Data 3)] [] [].

Lemma executePlan_filled_buckets_witness :
  executePlan rejectingExecute [] filledState asyncPlan [PR 7; PRNull; PRCrystalError 9; PR 7] =
    (filledState, Direct [Data 3; Null; CrystalErrorV 9; Data 3],
     [(5, Direct [Data 3; Null; CrystalErrorV 9; Data 3])]).
Proof.
  apply (executePlan_filled_buckets rejectingExecute [] filledState asyncPlan
           [PR 7; PRNull; PRCrystalError 9; PR 7]).
  - reflexivity.
  - intros b Hb. cbn in Hb. repeat destruct Hb as [Hb|Hb]; try discriminate Hb; try contradiction;
      injection Hb as <-; discriminate.
Defined.



(** X18: A [__ValuePlan] must never be queued: as soon as one parent's bucket
    holds no value for it, [executePlan] (without a cached result) throws
    the internal error synchronously, before calling [execute], and leaves
    the state and the cache as they were. *)
Theorem executePlan_valuePlan_missing (execute : nat -> ExecOutcome)
    (cache : list (nat * CallResult)) (st : ExecState) (plan : XPlan)
    (prs : list PlanResultsEntry) (b : nat) :
  isValuePlan plan = true ->
  find (fun kv => Nat.eqb (fst kv) (xid plan)) cache = None ->
  In (PR b) prs -> bucketGet (store st) b (xid plan) = None ->
  executePlan execute cache st plan prs = (st, SyncThrow valuePlanError, cache).
Proof.
  intros Hv Hc Hb Hnone. unfold executePlan. rewrite Hc. unfold executePlanAlt.
  assert (Hitem : isItemPlan plan = false)
    by (unfold isValuePlan in Hv; unfold isItemPlan; destruct (xclass plan); congruence).
  rewrite Hitem.
  destruct (groups_of prs) as (_ & Hcov & _).
  apply In_nth_error in Hb as [j Hj]. destruct (Hcov j b Hj) as (g & Hg & Eg & _).
  rewrite (altLoop_value_throw plan (store st) Hv _ _ _ g Hg) by (rewrite Eg; exact Hnone).
  reflexivity.
Qed.

Definition valuePlanX : XPlan := mkXPlan 6 XValuePlan true.

Lemma executePlan_valuePlan_missing_witness :
  executePlan steadyExecute [(5, Direct [])] filledState valuePlanX [PR 7; PRNull; PR 7] =
    (filledState, SyncThrow valuePlanError, [(5, Direct [])]).
Proof.
  apply (executePlan_valuePlan_missing steadyExecute [(5, Direct [])] filledState valuePlanX
           [PR 7; PRNull; PR 7] 7); [reflexivity|reflexivity|right; right; left; reflexivity|reflexivity].
Defined.










End ExecutorExtraFacts.

(** * Facts about [isPeer] and the peers of [deduplicatePlan] *)

Module PeerFacts.
Import Compiler.

Lemma planEqb_spec p q : planEqb p q = true <-> p = q.
Proof. unfold planEqb. destruct (ExecutablePlan_eq_dec p q); split; congruence. Qed.

Lemma slotEqb_true x y : slotEqb x y = true <-> x = y.
Proof.
  destruct x as [[p|]|], y as [[q|]|]; cbn [slotEqb optPlanEqb];
    try (split; [discriminate|congruence]); try (split; reflexivity).
  rewrite planEqb_spec. split; congruence.
Qed.

Lemma arraysMatch_slots (t : PlanTable) : forall xs ys,
  arraysMatch xs ys (fun depA depB => slotEqb (lookupSlot t depA) (lookupSlot t depB)) = true <->
  map (lookupSlot t) xs = map (lookupSlot t) ys.
Proof.
  induction xs as [|x xs IH]; intros [|y ys]; cbn [arraysMatch map];
    try (split; [discriminate|congruence]); [split; reflexivity|].
  rewrite andb_true_iff, slotEqb_true, IH. split; [intros [-> ->]; reflexivity|].
  intros E. injection E as E1 E2. split; assumption.
Qed.

Lemma isPeer_true a p q : isPeer a p q = true <->
  constructor_ p = constructor_ q /\ parentPathIdentity p = parentPathIdentity q /\
  map (lookupSlot (plans a)) (dependencies p) = map (lookupSlot (plans a)) (dependencies q).
Proof.
  unfold isPeer. rewrite !andb_true_iff, String.eqb_eq, arraysMatch_slots.
  unfold PlanClass_eqb. destruct (PlanClass_eq_dec (constructor_ p) (constructor_ q)) as [E|E].
  - split; [intros [[_ H1] H2]; auto|intros (_ & H1 & H2); auto].
  - split; [intros [[H _] _]; discriminate|intros [H _]; contradiction].
Qed.

(** X20: [isPeer] is an equivalence on plans: a plan is its own peer, the
    relation does not depend on the order of its arguments, and a peer of a
    peer is a peer (same class, same parent path identity, and dependency
    ids naming the same plan objects, index by index). *)
Theorem isPeer_equivalence (a : Aether) :
  (forall p, isPeer a p p = true) /\
  (forall p q, isPeer a p q = isPeer a q p) /\
  (forall p q r, isPeer a p q = true -> isPeer a q r = true -> isPeer a p r = true).
Proof.
  split; [|split].
  - intros p. apply isPeer_true. auto.
  - intros p q. destruct (isPeer a p q) eqn:E1, (isPeer a q p) eqn:E2; try reflexivity.
    + apply isPeer_true in E1 as (H1 & H2 & H3).
      assert (isPeer a q p = true) by (apply isPeer_true; auto). congruence.
    + apply isPeer_true in E2 as (H1 & H2 & H3).
      assert (isPeer a p q = true) by (apply isPeer_true; auto). congruence.
  - intros p q r Hpq Hqr. apply isPeer_true in Hpq as (H1 & H2 & H3), Hqr as (H4 & H5 & H6).
    apply isPeer_true. split; [congruence|split; congruence].
Qed.

Lemma collectPeers_spec a plan : forall entries seen,
  NoDup (map id (collectPeers a plan seen entries)) /\
  forall p, In p (collectPeers a plan seen entries) ->
    ~ In (id p) seen /\ isPeer a plan p = true /\ hasSideEffects p = false /\
    In (id p, Some p) entries.
Proof.
  induction entries as [|[k [pp|]] rest IH]; intros seen; cbn [collectPeers].
  - split; [constructor|intros p []].
  - destruct (Nat.eqb (id pp) k && negb (hasSideEffects pp)
              && negb (existsb (Nat.eqb (id pp)) seen) && isPeer a plan pp) eqn:Hc.
    + apply andb_true_iff in Hc as [Hc Hpeer]. apply andb_true_iff in Hc as [Hc Hseen].
      apply andb_true_iff in Hc as [Hk Hse]. apply Nat.eqb_eq in Hk.
      apply negb_true_iff in Hse, Hseen.
      destruct (IH (id pp :: seen)) as [Hnd Hps]. split.
      * cbn [map]. constructor; [|exact Hnd].
        intros Hin. apply in_map_iff in Hin as [p' [Ep' Hp']].
        apply (proj1 (Hps p' Hp')). left. symmetry. exact Ep'.
      * intros p [<-|Hp].
        -- split; [|split; [exact Hpeer|split; [exact Hse|left; rewrite Hk; reflexivity]]].
           intros Hin. assert (existsb (Nat.eqb (id pp)) seen = true)
             by (apply existsb_exists; exists (id pp); split; [exact Hin|apply Nat.eqb_refl]).
           congruence.
        -- destruct (Hps p Hp) as (Hs & H1 & H2 & H3).
           split; [intros Hin; apply Hs; right; exact Hin|].
           split; [exact H1|split; [exact H2|right; exact H3]].
    + destruct (IH seen) as [Hnd Hps]. split; [exact Hnd|].
      intros p Hp. destruct (Hps p Hp) as (H0 & H1 & H2 & H3). repeat split; auto. right; exact H3.
  - destruct (IH seen) as [Hnd Hps]. split; [exact Hnd|].
    intros p Hp. destruct (Hps p Hp) as (H0 & H1 & H2 & H3). repeat split; auto. right; exact H3.
Qed.

(** X21: The peers [deduplicatePlan] hands to a plan's [deduplicate] method are
    distinct plans, none of them the plan itself (no two share an id, and
    none has the plan's id); each is a peer of the plan per [isPeer], has no
    side effects, and sits in the plan table under its own id. *)
Theorem deduplicatePlan_peers (a : Aether) (plan : ExecutablePlan) :
  let peers := collectPeers a plan [id plan] (plans a) in
  NoDup (id plan :: map id peers) /\
  forall p, In p peers ->
    isPeer a plan p = true /\ hasSideEffects p = false /\ In (id p, Some p) (plans a).
Proof.
  cbn zeta. destruct (collectPeers_spec a plan (plans a) [id plan]) as [Hnd Hps]. split.
  - constructor; [|exact Hnd]. intros Hin. apply in_map_iff in Hin as [p [Ep Hp]].
    apply (proj1 (Hps p Hp)). left. symmetry. exact Ep.
  - intros p Hp. destruct (Hps p Hp) as (_ & H1 & H2 & H3). auto.
Qed.

(** X22: Whatever a plan's [deduplicate] method returns, a successful
    [deduplicatePlan] yields the plan itself or one of its peers: a plan of
    the same class at the same level with the same dependencies, without
    side effects, and with a different id. *)
Theorem deduplicatePlan_replacement
    (deduplicateMethod : ExecutablePlan -> list ExecutablePlan -> ExecutablePlan)
    (a : Aether) (plan r : ExecutablePlan) :
  deduplicatePlan deduplicateMethod a plan = Ok r ->
  r = plan \/
  (isPeer a plan r = true /\ hasSideEffects r = false /\ id r <> id plan /\
   In (id r, Some r) (plans a)).
Proof.
  unfold deduplicatePlan. destruct (hasSideEffects plan).
  { intros E. injection E as <-. left. reflexivity. }
  cbn zeta. destruct (match planOptionsOf (planOptionsByPlan a) plan with
                      | Some o => match stream o with Some _ => true | None => false end
                      | None => false end).
  { intros E. injection E as <-. left. reflexivity. }
  destruct (collectPeers_spec a plan (plans a) [id plan]) as [_ Hps].
  destruct (collectPeers a plan [id plan] (plans a)) as [|p0 ps] eqn:Hp.
  { intros E. injection E as <-. left. reflexivity. }
  destruct (negb (planEqb (deduplicateMethod plan (p0 :: ps)) plan)
            && negb (memPlan (deduplicateMethod plan (p0 :: ps)) (p0 :: ps))) eqn:Hc;
    [discriminate|].
  intros E. injection E as <-.
  apply andb_false_iff in Hc as [Hc|Hc]; apply negb_false_iff in Hc.
  - left. apply planEqb_spec. exact Hc.
  - right. unfold memPlan in Hc. apply existsb_exists in Hc as [q [Hq Eq]].
    apply planEqb_spec in Eq. rewrite Eq.
    destruct (Hps q Hq) as (Hs & H1 & H2 & H3).
    split; [exact H1|split; [exact H2|split; [intros E; apply Hs; left; symmetry; exact E|exact H3]]].
Qed.

Lemma deduplicatePlan_replacement_witness :
  deduplicatePlan firstPeer dedupAether plainQ = Ok streamedP /\
  (streamedP = plainQ \/
   (isPeer dedupAether plainQ streamedP = true /\ hasSideEffects streamedP = false /\
    id streamedP <> id plainQ /\ In (id streamedP, Some streamedP) (plans dedupAether))).
Proof.
  split; [vm_compute; reflexivity|].
  apply (deduplicatePlan_replacement firstPeer dedupAether plainQ streamedP).
  vm_compute. reflexivity.
Defined.

End PeerFacts.

(** * Facts about [finalizePlans] *)

Module FinalizeFacts.
Import Compiler Finalize PeerFacts.

Lemma memPlan_true p s : memPlan p s = true <-> In p s.
Proof.
  unfold memPlan. rewrite existsb_exists. split.
  - intros [q [Hq E]]. apply planEqb_spec in E. subst q. exact Hq.
  - intros H. exists p. split; [exact H|apply planEqb_spec; reflexivity].
Qed.

Lemma finalize_fold (t : PlanTable) : forall ids distinct, NoDup distinct ->
  let r := fold_left (fun distinct i =>
               match lookupPlan t i with
               | Some p => if memPlan p distinct then distinct else distinct ++ [p]
               | None => distinct
               end) ids distinct in
  NoDup r /\ forall p, In p r <-> In p distinct \/ exists k, In k ids /\ lookupPlan t k = Some p.
Proof.
  induction ids as [|i ids IH]; intros distinct Hnd; cbn zeta; cbn [fold_left].
  - split; [exact Hnd|]. intros p. split; [intros H; left; exact H|].
    intros [H|(k & [] & _)]; exact H.
  - destruct (lookupPlan t i) as [q|] eqn:Hi.
    + destruct (memPlan q distinct) eqn:Hm.
      * destruct (IH distinct Hnd) as [Hnd' Hin]. split; [exact Hnd'|]. intros p. rewrite Hin.
        split.
        -- intros [H|(k & Hk & Ek)]; [left; exact H|right; exists k; split; [right; exact Hk|exact Ek]].
        -- intros [H|(k & [<-|Hk] & Ek)]; [left; exact H| |right; exists k; auto].
           left. rewrite Hi in Ek. injection Ek as <-. apply memPlan_true. exact Hm.
      * assert (Hnd1 : NoDup (distinct ++ [q])).
        { apply NoDup_app; [exact Hnd|repeat constructor; intros []|].
          intros x Hx [<-|[]]. apply memPlan_true in Hx. congruence. }
        destruct (IH (distinct ++ [q]) Hnd1) as [Hnd' Hin]. split; [exact Hnd'|]. intros p.
        rewrite Hin, in_app_iff. split.
        -- intros [[H|[<-|[]]]|(k & Hk & Ek)];
             [left; exact H|right; exists i; split; [left; reflexivity|exact Hi]|
              right; exists k; split; [right; exact Hk|exact Ek]].
        -- intros [H|(k & [<-|Hk] & Ek)]; [left; left; exact H| |right; exists k; auto].
           left. right. rewrite Hi in Ek. injection Ek as <-. left. reflexivity.
    + destruct (IH distinct Hnd) as [Hnd' Hin]. split; [exact Hnd'|]. intros p. rewrite Hin.
      split.
      * intros [H|(k & Hk & Ek)]; [left; exact H|right; exists k; split; [right; exact Hk|exact Ek]].
      * intros [H|(k & [<-|Hk] & Ek)]; [left; exact H|congruence|right; exists k; auto].
Qed.

(** X23: [finalizePlans] calls [finalize] once on every distinct plan of the
    table and on nothing else: the plans it finalizes are pairwise
    distinct, and they are exactly the plans found (not [null]) under some
    key of [this.plans]; a plan left under several keys by deduplication is
    finalized once. *)
Theorem finalizePlans_once (a : Aether) :
  NoDup (finalizeOrder a) /\
  forall p, In p (finalizeOrder a) <->
    exists k, In k (map fst (plans a)) /\ lookupPlan (plans a) k = Some p.
Proof.
  unfold finalizeOrder.
  destruct (finalize_fold (plans a) (rev (getPlanIds a 0)) [] (NoDup_nil _)) as [Hnd Hin].
  split; [exact Hnd|]. intros p. rewrite Hin. unfold getPlanIds. cbn [skipn].
  split.
  - intros [[]|(k & Hk & Ek)]. exists k. split; [apply in_rev; exact Hk|exact Ek].
  - intros (k & Hk & Ek). right. exists k. split; [apply in_rev in Hk; exact Hk|exact Ek].
Qed.

End FinalizeFacts.

(** * Facts about [walkTreeFirstPlanUsages] *)

Module WalkFacts.
Import Compiler Walk.

(** One branch of the tree is a prefix of another when the second node lies
    below (or is) the first. *)
Definition branchPrefix (b1 b2 : list nat) : Prop := exists l, b2 = b1 ++ l.

(** No plan is reported twice on one root-to-leaf line of the tree. *)
Definition firstUsages (rs : list (list nat * option ExecutablePlan)) : Prop :=
  forall i j bi bj p, i <> j -> nth_error rs i = Some (bi, p) ->
    nth_error rs j = Some (bj, p) -> ~ branchPrefix bi bj.

(** The known set grows by exactly the plans reported, all at [branch]. *)
Definition grows (branch : list nat) (k : list (option ExecutablePlan)) (s : WalkState)
    (k' : list (option ExecutablePlan)) (s' : WalkState) : Prop :=
  exists new, reports s' = reports s ++ new /\ Forall (fun e => fst e = branch) new /\
    k' = k ++ map snd new /\ NoDup k'.

Lemma optPlanEqb_true (x y : option ExecutablePlan) : optPlanEqb x y = true <-> x = y.
Proof.
  destruct x as [p|], y as [q|]; cbn; try (split; congruence).
  unfold planEqb. destruct (ExecutablePlan_eq_dec p q); split; congruence.
Qed.

Lemma existsb_optPlanEqb_false (x : option ExecutablePlan) (k : list (option ExecutablePlan)) :
  existsb (optPlanEqb x) k = false -> ~ In x k.
Proof.
  intros H Hin. assert (existsb (optPlanEqb x) k = true) as Ht.
  { apply existsb_exists. exists x. split; [exact Hin | apply optPlanEqb_true; reflexivity]. }
  congruence.
Qed.

Lemma grows_refl branch k s : NoDup k -> grows branch k s k s.
Proof.
  intros Hk. exists []. rewrite app_nil_r. repeat split; auto. cbn. rewrite app_nil_r. reflexivity.
Qed.

Lemma grows_trans branch k1 s1 k2 s2 k3 s3 :
  grows branch k1 s1 k2 s2 -> grows branch k2 s2 k3 s3 -> grows branch k1 s1 k3 s3.
Proof.
  intros (n1 & R1 & F1 & K1 & D1) (n2 & R2 & F2 & K2 & D2).
  exists (n1 ++ n2). repeat split.
  - rewrite R2, R1, app_assoc. reflexivity.
  - apply Forall_app. auto.
  - rewrite K2, K1, map_app, app_assoc. reflexivity.
  - exact D2.
Qed.

Lemma addTransformNode_reports a node st p :
  reports (snd (addTransformNode a node st p)) = reports st.
Proof.
  unfold addTransformNode.
  destruct (PlanClass_eqb (constructor_ p) ListTransformPlan); [|reflexivity].
  destruct (existsb _ _); reflexivity.
Qed.

Lemma processPlan_grows a fuel : forall branch node known st plan node' known' st',
  NoDup known ->
  processPlan a fuel branch node known st plan = Ok (node', known', st') ->
  grows branch known st known' st'.
Proof.
  induction fuel as [|f IH]; intros branch node known st plan node' known' st' Hk H;
    cbn [processPlan] in H; [discriminate|].
  destruct (existsb (optPlanEqb plan) known) eqn:Ek.
  { inversion H; subst. apply grows_refl. exact Hk. }
  apply existsb_optPlanEqb_false in Ek.
  destruct plan as [p|].
  2: { destruct (node, st). discriminate. }
  pose proof (addTransformNode_reports a node st p) as Hr.
  destruct (addTransformNode a node st p) as [node1 st1]. cbn in Hr.
  assert (Hstep : grows branch known st (known ++ [Some p])
            (mkWalkState (planIdByPathIdentity st1) (reports st1 ++ [(branch, Some p)]))).
  { exists [(branch, Some p)]. cbn. rewrite Hr. repeat split; auto.
    apply NoDup_app; auto.
    - constructor; [intros []|constructor].
    - intros x Hx [Hx'|[]]. subst. contradiction. }
  assert (Hfold : forall deps n k s r, grows branch known st k s ->
            foldM (fun acc depId => let '(n, k, s) := acc in
                     processPlan a f branch n k s (lookupPlan (plans a) depId))
                  deps (n, k, s) = Ok r ->
            grows branch known st (snd (fst r)) (snd r)).
  { induction deps as [|d ds IHd]; intros n k s r Hg Hf; cbn [foldM] in Hf.
    - inversion Hf; subst. exact Hg.
    - destruct (processPlan a f branch n k s (lookupPlan (plans a) d))
        as [[[n1 k1] s1]|e] eqn:Ep; cbn in Hf; [|discriminate].
      apply (IHd n1 k1 s1 r); [|exact Hf].
      eapply grows_trans; [exact Hg|].
      destruct Hg as (? & ? & ? & ? & Hkd).
      eapply IH; [exact Hkd | exact Ep]. }
  exact (Hfold _ _ _ _ _ Hstep H).
Qed.

Lemma prefix_distinct_index (b l1 l2 : list nat) i k :
  branchPrefix (b ++ i :: l1) (b ++ k :: l2) -> i = k.
Proof.
  intros [l Hl]. rewrite <- app_assoc in Hl. apply app_inv_head in Hl.
  cbn in Hl. inversion Hl. reflexivity.
Qed.

Lemma firstUsages_app (l1 l2 : list (list nat * option ExecutablePlan)) :
  firstUsages l1 -> firstUsages l2 ->
  (forall b1 b2 p, In (b1, p) l1 -> In (b2, p) l2 ->
     ~ branchPrefix b1 b2 /\ ~ branchPrefix b2 b1) ->
  firstUsages (l1 ++ l2).
Proof.
  intros H1 H2 Hx i j bi bj p Hij Ei Ej.
  destruct (Nat.lt_ge_cases i (List.length l1)) as [Li|Li];
  destruct (Nat.lt_ge_cases j (List.length l1)) as [Lj|Lj].
  - rewrite nth_error_app1 in Ei, Ej by exact (ltac:(assumption)).
    exact (H1 i j bi bj p Hij Ei Ej).
  - rewrite nth_error_app1 in Ei by assumption. rewrite nth_error_app2 in Ej by assumption.
    apply nth_error_In in Ei, Ej. exact (proj1 (Hx _ _ _ Ei Ej)).
  - rewrite nth_error_app2 in Ei by assumption. rewrite nth_error_app1 in Ej by assumption.
    apply nth_error_In in Ei, Ej. exact (proj2 (Hx _ _ _ Ej Ei)).
  - rewrite nth_error_app2 in Ei, Ej by assumption.
    apply (H2 (i - List.length l1) (j - List.length l1) bi bj p); [lia | exact Ei | exact Ej].
Qed.

Lemma firstUsages_distinct (l : list (list nat * option ExecutablePlan)) :
  NoDup (map snd l) -> firstUsages l.
Proof.
  intros Hd i j bi bj p Hij Ei Ej _.
  apply Hij. eapply NoDup_nth_error; [exact Hd| |].
  - apply nth_error_Some. rewrite nth_error_map, Ei. discriminate.
  - rewrite !nth_error_map, Ei, Ej. reflexivity.
Qed.

(** What one call of [recurse] adds to the reports. *)
Definition walkSpec (branch : list nat) (known : list (option ExecutablePlan))
    (st st' : WalkState) : Prop :=
  exists new, reports st' = reports st ++ new /\
    (forall e, In e new -> branchPrefix branch (fst e)) /\
    (forall e, In e new -> ~ In (snd e) known) /\
    firstUsages new.

Section Children.
Variable rec : list nat -> WalkNode -> list (option ExecutablePlan) -> WalkState ->
               result (WalkNode * WalkState).
Hypothesis rec_spec : forall branch node known st node' st', NoDup known ->
  rec branch node known st = Ok (node', st') -> walkSpec branch known st st'.

Lemma walkChildren_spec branch : forall cs i known st cs' st', NoDup known ->
  walkChildren rec branch i cs known st = Ok (cs', st') ->
  exists new, reports st' = reports st ++ new /\
    (forall e, In e new -> exists k l, i <= k /\ fst e = branch ++ k :: l) /\
    (forall e, In e new -> ~ In (snd e) known) /\
    firstUsages new.
Proof.
  induction cs as [|c cs IHc]; intros i known st cs' st' Hk H; cbn [walkChildren] in H.
  - inversion H; subst. exists []. rewrite app_nil_r. split; [reflexivity|].
    split; [intros ? []|]. split; [intros ? []|].
    intros x y ? ? ? _ Ex. destruct x; discriminate.
  - destruct (rec (branch ++ [i]) c known st) as [[c1 st1]|e] eqn:Er; cbn in H; [|discriminate].
    destruct (walkChildren rec branch (S i) cs known st1) as [[cs1 st2]|e] eqn:Ew;
      cbn in H; [|discriminate].
    inversion H; subst.
    destruct (rec_spec _ _ _ _ _ _ Hk Er) as (n1 & R1 & P1 & K1 & U1).
    destruct (IHc _ _ _ _ _ Hk Ew) as (n2 & R2 & P2 & K2 & U2).
    exists (n1 ++ n2). repeat split.
    + rewrite R2, R1, app_assoc. reflexivity.
    + intros e He. apply in_app_or in He as [He|He].
      * destruct (P1 e He) as [l Hl]. exists i, l. split; [lia|]. rewrite Hl, <- app_assoc. reflexivity.
      * destruct (P2 e He) as (k & l & Hik & Hl). exists k, l. split; [lia | exact Hl].
    + intros e He. apply in_app_or in He as [He|He]; auto.
    + apply firstUsages_app; auto.
      intros b1 b2 p I1 I2.
      destruct (P1 _ I1) as [l1 Hl1]. destruct (P2 _ I2) as (k & l2 & Hik & Hl2).
      cbn in Hl1, Hl2. rewrite <- app_assoc in Hl1. cbn in Hl1. subst b1 b2.
      split; intros Hp; apply prefix_distinct_index in Hp; lia.
Qed.
End Children.

Lemma NoDup_app_disjoint {A} (l1 l2 : list A) x :
  NoDup (l1 ++ l2) -> In x l1 -> In x l2 -> False.
Proof.
  induction l1 as [|y l1 IH]; intros Hd H1 H2; [destruct H1|].
  inversion Hd as [|? ? Hy Hd']; subst. destruct H1 as [<-|H1].
  - apply Hy. apply in_or_app. right. exact H2.
  - exact (IH Hd' H1 H2).
Qed.

Lemma recurse_spec a sub fuel : forall branch node known st node' st', NoDup known ->
  recurse a sub fuel branch node known st = Ok (node', st') -> walkSpec branch known st st'.
Proof.
  induction fuel as [|f IH]; intros branch node known st node' st' Hk H;
    cbn [recurse] in H; [discriminate|].
  match type of H with bind ?m _ = Ok _ =>
    destruct m as [[[node1 known1] st1]|e] eqn:E0 end; cbn [bind] in H; [|discriminate].
  assert (G0 : grows branch known st known1 st1).
  { destruct branch as [|b bs]; [destruct sub as [sid|]|].
    - destruct (lookupPlan (plans a) sid) eqn:Esp; [|discriminate].
      eapply processPlan_grows; [exact Hk | exact E0].
    - inversion E0; subst. apply grows_refl. exact Hk.
    - inversion E0; subst. apply grows_refl. exact Hk. }
  destruct (planIdOf (planIdByPathIdentity st1) (pathIdentity node1)) as [tid|]; [|discriminate].
  destruct (lookupPlan (plans a) tid) as [tp|]; [|discriminate].
  destruct (processPlan a (S f) branch node1 known1 st1 (Some tp))
    as [[[node2 known2] st2]|e] eqn:E1; cbn [bind] in H; [|discriminate].
  destruct (walkChildren (recurse a sub f) branch 0 (children node2) known2 st2)
    as [[cs st3]|e] eqn:E2; cbn [bind] in H; [|discriminate].
  inversion H; subst node' st3.
  assert (G : grows branch known st known2 st2).
  { eapply grows_trans; [exact G0|].
    destruct G0 as (? & ? & ? & ? & Hk1). eapply processPlan_grows; [exact Hk1 | exact E1]. }
  destruct G as (n0 & R0 & F0 & K0 & D0).
  destruct (walkChildren_spec (recurse a sub f) (IH) branch _ _ _ _ _ _ D0 E2)
    as (n1 & R1 & P1 & K1 & U1).
  subst known2.
  exists (n0 ++ n1). repeat split.
  - rewrite R1, R0, app_assoc. reflexivity.
  - intros e He. apply in_app_or in He as [He|He].
    + rewrite Forall_forall in F0. exists []. rewrite (F0 e He), app_nil_r. reflexivity.
    + destruct (P1 e He) as (k & l & _ & Hl). exists (k :: l). exact Hl.
  - intros e He Hin. apply in_app_or in He as [He|He].
    + apply (NoDup_app_disjoint known (map snd n0) (snd e) D0 Hin). apply in_map. exact He.
    + apply (K1 e He). apply in_or_app. left. exact Hin.
  - apply firstUsages_app.
    + apply firstUsages_distinct. eapply NoDup_app_remove_l. exact D0.
    + exact U1.
    + intros b1 b2 p I1 I2. exfalso. apply (K1 _ I2). cbn.
      apply in_or_app. right. exact (in_map snd _ _ I1).
Qed.

(** X24: in [walkTreeFirstPlanUsages], a plan is never reported twice on one
    line from the root to a leaf: if two different calls of the callback
    report the same plan, neither tree node lies below the other. *)
Theorem walkTreeFirstPlanUsages_first_usages a sub fuel rootTreeNode pids root' st' :
  walkTreeFirstPlanUsages a sub fuel rootTreeNode pids = Ok (root', st') ->
  forall i j bi bj p, i <> j ->
    nth_error (reports st') i = Some (bi, p) ->
    nth_error (reports st') j = Some (bj, p) ->
    ~ (exists l, bj = bi ++ l).
Proof.
  unfold walkTreeFirstPlanUsages. intros H.
  destruct (recurse_spec a sub fuel [] rootTreeNode [] _ root' st' (NoDup_nil _) H)
    as (new & R & _ & _ & U).
  cbn in R. rewrite R. exact U.
Qed.

Lemma walkTreeFirstPlanUsages_first_usages_witness :
  exists root' st',
    walkTreeFirstPlanUsages wAether None 10 wTree wPlanIds = Ok (root', st') /\
    (forall i j bi bj p, i <> j ->
      nth_error (reports st') i = Some (bi, p) ->
      nth_error (reports st') j = Some (bj, p) ->
      ~ (exists l, bj = bi ++ l)).
Proof.
  eexists. eexists. split; [vm_compute; reflexivity|].
  eapply (walkTreeFirstPlanUsages_first_usages wAether None 10 wTree wPlanIds).
  vm_compute. reflexivity.
Defined.

End WalkFacts.
